(** * CloudWatch alarm helpers of the MSAM API (chalicelib/cloudwatch.py)

    A shallow embedding of the alarm-subscription registry and of the
    alarm-notification handler, together with the properties the
    specification states about them.

    Python values are modelled as follows.
    - [str] is [string]; a string stands for its UTF-8 bytes, so that the
      byte-wise lexicographic order below is Python's code-point order.
    - a [dict] with string keys is a [gmap string _]; the one dictionary
      whose iteration order is observed ([resources] in
      [subscribed_with_state]) is an association list in insertion order.
    - a [set] of strings is a [gset string].
    - exceptions are explicit: every operation returns an [Outcome]. *)

From Stdlib Require Import ZArith Ascii String.
From stdpp Require Import base gmap strings list sorting.

#[local] Set Warnings "-clear-no-such-hyp".

Local Open Scope Z_scope.
Local Open Scope stdpp_scope.

(** ** Strings: order, [sorted], [str.split] and [str.format] *)

Module Str.

(** Python compares strings code point by code point. *)
Definition le (a b : string) : Prop := String.leb a b = true.
Definition lt (a b : string) : Prop := String.ltb a b = true.

(** ["{}:{}".format(a, b)] *)
Definition format_colon (a b : string) : string := a +:+ ":" +:+ b.

Definition is_colon (c : ascii) : bool := Ascii.eqb c ":"%char.

(** [s.partition(":")] when [s] holds a colon. *)
Fixpoint cut (s : string) : option (string * string) :=
  match s with
  | EmptyString => None
  | String c r =>
      if is_colon c then Some (EmptyString, r)
      else match cut r with
           | Some (a, b) => Some (String c a, b)
           | None => None
           end
  end.

(** [s.split(":", maxsplit=1)] *)
Definition split1 (s : string) : list string :=
  match cut s with
  | Some (a, b) => [a; b]
  | None => [s]
  end.

(** [s.split(":")] *)
Fixpoint split (s : string) : list string :=
  match s with
  | EmptyString => [EmptyString]
  | String c r =>
      if is_colon c then EmptyString :: split r
      else match split r with
           | h :: t => String c h :: t
           | [] => [String c EmptyString]
           end
  end.

Fixpoint has_colon (s : string) : bool :=
  match s with
  | EmptyString => false
  | String c r => is_colon c || has_colon r
  end.

End Str.

#[export] Instance str_le_dec : RelDecision Str.le.
Proof. intros a b. unfold Str.le. apply _. Defined.

#[export] Instance str_lt_dec : RelDecision Str.lt.
Proof. intros a b. unfold Str.lt. apply _. Defined.

(** [sorted(xs)] for an iterable of pairwise distinct strings (a set, or the
    keys of a dict). *)
Definition sorted (xs : gset string) : list string :=
  merge_sort Str.le (elements xs).


(** ** Exceptions and outcomes *)

(** The exceptions the module can meet.  [ClientError] is botocore's: the
    only one the module catches. *)
Inductive Exn :=
  | ClientError | KeyError | IndexError | ValueError | TypeError
  | AttributeError.

Inductive Outcome (A : Type) :=
  | Ret (a : A)
  | Raise (e : Exn).
Arguments Ret {A} a.
Arguments Raise {A} e.

#[export] Instance Exn_eq_dec : EqDecision Exn.
Proof. solve_decision. Defined.

(** ** Attribute values and items *)

(** The attribute values the module reads and writes: strings and
    integers. *)
Inductive AttrValue :=
  | AttrS (s : string)
  | AttrN (n : Z).

#[export] Instance AttrValue_eq_dec : EqDecision AttrValue.
Proof. solve_decision. Defined.

(** A Python dict holding an item. *)
Abbreviation Dict := (gmap string AttrValue).

(** An item of the alarms table.  The table's key schema is
    (RegionAlarmName, ResourceArn), both strings: the store holds no item
    without them, so they are fields; [attributes] holds the rest. *)
Record Item := mkItem {
  key_RegionAlarmName : string;
  key_ResourceArn : string;
  attributes : Dict
}.

#[export] Instance Item_eq_dec : EqDecision Item.
Proof. solve_decision. Defined.

(** The dict a query or scan response holds for an item. *)
Definition to_dict (it : Item) : Dict :=
  <["RegionAlarmName" := AttrS (key_RegionAlarmName it)]>
    (<["ResourceArn" := AttrS (key_ResourceArn it)]> (attributes it)).

(** The item the store keeps for the dict given to [put_item]; a dict
    without the two key strings is refused by the store. *)
Definition of_dict (d : Dict) : option Item :=
  match d !! "RegionAlarmName", d !! "ResourceArn" with
  | Some (AttrS ran), Some (AttrS arn) =>
      Some (mkItem ran arn (delete "RegionAlarmName" (delete "ResourceArn" d)))
  | _, _ => None
  end.

Definition same_key (a b : Item) : bool :=
  bool_decide (key_RegionAlarmName a = key_RegionAlarmName b) &&
  bool_decide (key_ResourceArn a = key_ResourceArn b).

(** A raw metric alarm of [describe_alarms], with the six keys that
    [filtered_alarm] reads; [None] is a key the alarm lacks (an alarm on a
    metric-math expression has no MetricName and no Namespace).  The
    timestamp is a datetime, held as microseconds since the epoch. *)
Record RawAlarm := mkRawAlarm {
  AlarmArn : option string;
  AlarmName : option string;
  MetricName : option string;
  Namespace : option string;
  StateValue : option string;
  StateUpdatedTimestamp : option Z
}.

(** The decoded alarm message of a notification, with the four fields the
    handler reads; [None] is a field the message lacks. *)
Record Payload := mkPayload {
  msg_AlarmName : option string;
  msg_NewStateValue : option string;
  msg_Trigger_Namespace : option string;
  msg_StateChangeTime : option string
}.

(** A record of the Lambda event: [record["EventSubscriptionArn"]] and
    [record["Sns"]["Message"]]. *)
Record Notification := mkNotification {
  EventSubscriptionArn : string;
  Sns_Message : string
}.

(** ** The external services

    DynamoDB and CloudWatch are outside the module.  Following the
    collaborator contracts, the alarms table is a list of items in the
    store's own order; [put_item] replaces the item with the same key or adds
    a new one, [delete_item] removes it, a query returns the items whose
    index attribute equals the given value, one page after another.

    Everything the module does not control is decided by a script that the
    services consume, one [Decision] for each request: whether the request
    fails, and where a page ends.  An exhausted script answers every
    request in full. *)

Inductive Decision :=
  | Fault            (* the request raises ClientError *)
  | Limit (n : nat)  (* a page of at most n items, with a continuation key *)
  | Rest.            (* all the remaining items, without continuation key *)

#[export] Instance Decision_eq_dec : EqDecision Decision.
Proof. solve_decision. Defined.

Inductive Write :=
  | Put (d : Dict)
  | Delete (d : Dict).

Record Env := mkEnv {
  table : list Item;                       (* ALARMS_TABLE_NAME *)
  events : list Dict;                      (* EVENTS_TABLE_NAME *)
  metric_alarms : gmap string (list RawAlarm);  (* CloudWatch, by region *)
  script : list Decision;
  clock : Z;                               (* int(time.time()) *)
  journal : list Write                     (* write requests sent so far *)
}.

Definition set_table (t : list Item) (env : Env) : Env :=
  mkEnv t (events env) (metric_alarms env) (script env) (clock env)
        (journal env).
Definition set_script (s : list Decision) (env : Env) : Env :=
  mkEnv (table env) (events env) (metric_alarms env) s (clock env)
        (journal env).
Definition log_write (w : Write) (env : Env) : Env :=
  mkEnv (table env) (events env) (metric_alarms env) (script env) (clock env)
        (journal env ++ [w]).

(** Computations that talk to the services. *)
Definition M (A : Type) : Type := Env -> Outcome A * Env.

Definition ret {A} (a : A) : M A := fun env => (Ret a, env).
Definition raise {A} (e : Exn) : M A := fun env => (Raise e, env).
Definition bind {A B} (m : M A) (k : A -> M B) : M B :=
  fun env =>
    match m env with
    | (Ret a, env') => k a env'
    | (Raise e, env') => (Raise e, env')
    end.

Notation "x <- m ;; k" := (bind m (fun x => k))
  (at level 100, m at next level, right associativity).
Notation "m ;;; k" := (bind m (fun _ => k))
  (at level 100, right associativity).

(** [try: body except ClientError: handler] *)
Definition try_except {A} (body handler : M A) : M A :=
  fun env =>
    match body env with
    | (Raise ClientError, env') => handler env'
    | r => r
    end.

(** [for x in xs: f(x)] *)
Fixpoint for_each {T} (f : T -> M unit) (xs : list T) : M unit :=
  match xs with
  | [] => ret tt
  | x :: xs' => f x ;;; for_each f xs'
  end.

(** [o] when present, else the exception. *)
Definition expect {A} (e : Exn) (o : option A) : M A :=
  match o with
  | Some a => ret a
  | None => raise e
  end.

(** *** Writes *)

Definition upsert (it : Item) (t : list Item) : list Item :=
  if existsb (same_key it) t
  then map (fun old => if same_key it old then it else old) t
  else t ++ [it].

Definition remove_key (it : Item) (t : list Item) : list Item :=
  filter (fun old => same_key it old = false) t.

(** One write request: it is logged, takes one decision of the script, and
    changes the table unless it fails. *)
Definition write_request (w : Write) (d : Dict)
    (change : Item -> list Item -> list Item) : M unit :=
  fun env =>
    let env := log_write w env in
    let env' := set_script (tail (script env)) env in
    match head (script env), of_dict d with
    | Some Fault, _ => (Raise ClientError, env')
    | _, None => (Raise ClientError, env')
    | _, Some it => (Ret tt, set_table (change it (table env')) env')
    end.

(** [ddb_table.put_item(Item=item)] *)
Definition put_item (item : Dict) : M unit :=
  write_request (Put item) item upsert.

(** [ddb_table.delete_item(Key=item)] *)
Definition delete_item (key : Dict) : M unit :=
  write_request (Delete key) key remove_key.

(** *** Paginated reads *)

Section Pages.
Context {T A : Type}.

(** The answer to one request over the items still to be returned: the
    page, and the items left when a continuation key comes with it. *)
Definition respond (d : Decision) (source : list T)
    : Outcome (list T * option (list T)) :=
  match d with
  | Fault => Raise ClientError
  | Limit n => Ret (take n source, Some (drop n source))
  | Rest => Ret (source, None)
  end.

Variable body : A -> T -> Outcome A.

(** [for item in response["Items"]: body]; the accumulator is a mutable
    object, so what was accumulated before an exception stays. *)
Fixpoint for_items (acc : A) (items : list T) : A * option Exn :=
  match items with
  | [] => (acc, None)
  | x :: rest =>
      match body acc x with
      | Ret acc' => for_items acc' rest
      | Raise e => (acc, Some e)
      end
  end.

(** The loop every list operation repeats:
    [response = request(); for ...; while key in response:
     response = request(ExclusiveStartKey=key); for ...]. *)
Fixpoint paginate (source : list T) (acc : A) (s : list Decision)
    : (A * option Exn) * list Decision :=
  match s with
  | [] => (for_items acc source, [])
  | d :: s' =>
      match respond d source with
      | Raise e => ((acc, Some e), s')
      | Ret (page, None) => (for_items acc page, s')
      | Ret (page, Some rest) =>
          match for_items acc page with
          | (acc', None) => paginate rest acc' s'
          | r => (r, s')
          end
      end
  end.

Definition run_pages (source : list T) (acc : A)
    : Env -> (A * option Exn) * Env :=
  fun env =>
    let '(r, s') := paginate source acc (script env) in
    (r, set_script s' env).

End Pages.

(** What follows a [try] block whose [except ClientError] only prints:
    the function goes on with what it accumulated; any other exception
    leaves the function. *)
Definition after_try {A B} (r : A * option Exn) (k : A -> B) : Outcome B :=
  match r with
  | (acc, None) => Ret (k acc)
  | (acc, Some ClientError) => Ret (k acc)
  | (_, Some e) => Raise e
  end.

(** The secondary indexes of the alarms table. *)
Inductive Index :=
  | ResourceArnIndex | RegionAlarmNameIndex | StateValueIndex.

(** [Key(attribute).eq(v)] on an index. *)
Definition index_eq (i : Index) (v : string) (it : Item) : bool :=
  match i with
  | ResourceArnIndex => bool_decide (key_ResourceArn it = v)
  | RegionAlarmNameIndex => bool_decide (key_RegionAlarmName it = v)
  | StateValueIndex =>
      bool_decide (attributes it !! "StateValue" = Some (AttrS v))
  end.

(** The items a query on an index returns, as dicts. *)
Definition query_source (i : Index) (v : string) (env : Env) : list Dict :=
  map to_dict (filter (fun it => index_eq i v it = true) (table env)).

(** The items a scan returns. *)
Definition scan_source (env : Env) : list Dict := map to_dict (table env).

(** ** The module *)

(** [for key in sorted(alarms): results.append(alarms[key])] *)
Definition values_by_key {V} (alarms : gmap string V) : list V :=
  omap (fun key => alarms !! key) (sorted (dom alarms)).

(** The dict [resources] of [subscribed_with_state] keeps insertion order:
    [resources[k] = v] replaces in place or appends. *)
Fixpoint od_set {V} (k : string) (v : V) (d : list (string * V))
    : list (string * V) :=
  match d with
  | [] => [(k, v)]
  | (k', v') :: d' =>
      if bool_decide (k' = k) then (k, v) :: d' else (k', v') :: od_set k v d'
  end.

Fixpoint od_get {V} (k : string) (d : list (string * V)) : option V :=
  match d with
  | [] => None
  | (k', v') :: d' => if bool_decide (k' = k) then Some v' else od_get k d'
  end.

Section Handlers.

(** Library functions, taken as they are. *)
(** [urllib.parse.unquote] *)
Variable unquote : string -> string.
(** [json.loads] on an alarm message; [None] when it raises. *)
Variable json_loads : string -> option Payload.
(** [int(datetime.strptime(s, '%Y-%m-%dT%H:%M:%S.%f%z').timestamp())];
    [None] when the string does not match the format. *)
Variable strptime_timestamp : string -> option Z.

(** [int(dt.timestamp())] for an aware datetime held in microseconds; the
    conversion goes through a float. *)
Variable epoch_seconds : Z -> Z.

(** *** filtered_alarm *)

(** Restructure a CloudWatch alarm into a simpler form; a key that the
    alarm lacks raises KeyError. *)
Definition filtered_alarm (alarm : RawAlarm) : Outcome Dict :=
  match AlarmArn alarm, AlarmName alarm, MetricName alarm, Namespace alarm,
        StateValue alarm, StateUpdatedTimestamp alarm with
  | Some arn, Some name, Some metric, Some namespace, Some state,
    Some updated =>
      Ret (<["AlarmArn" := AttrS arn]>
          (<["AlarmName" := AttrS name]>
          (<["MetricName" := AttrS metric]>
          (<["Namespace" := AttrS namespace]>
          (<["StateValue" := AttrS state]>
          (<["StateUpdated" := AttrN (epoch_seconds updated)]> ∅))))))
  | _, _, _, _, _, _ => Raise KeyError
  end.

(** *** alarms_for_subscriber *)

(** The body of both item loops of [alarms_for_subscriber]. *)
Definition alarms_for_subscriber_item (alarms : gmap string Dict)
    (item : Dict) : Outcome (gmap string Dict) :=
  match item !! "RegionAlarmName" with
  | Some (AttrS ran) =>
      match Str.split1 ran with
      | region :: name :: _ =>
          let item := <["Region" := AttrS region]> item in
          let item := <["AlarmName" := AttrS name]> item in
          let item := delete "ResourceArn" item in
          let item := delete "RegionAlarmName" item in
          let item := delete "Updated" item in
          Ret (<[ran := item]> alarms)
      | _ => Raise IndexError
      end
  | Some (AttrN _) => Raise AttributeError
  | None => Raise KeyError
  end.

Definition alarms_for_subscriber (resource_arn : string) : M (list Dict) :=
  fun env =>
    let resource_arn := unquote resource_arn in
    let '(r, env') :=
      run_pages alarms_for_subscriber_item
        (query_source ResourceArnIndex resource_arn env) ∅ env in
    (after_try r values_by_key, env').

(** *** all_subscribed_alarms *)

Definition all_subscribed_alarms_item (alarms : gmap string Dict)
    (item : Dict) : Outcome (gmap string Dict) :=
  match item !! "RegionAlarmName" with
  | Some (AttrS ran) =>
      match Str.split1 ran with
      | region :: name :: _ =>
          let alarm : Dict :=
            <["Region" := AttrS region]>
              (<["AlarmName" := AttrS name]> ∅) in
          Ret (<[ran := alarm]> alarms)
      | _ => Raise IndexError
      end
  | Some (AttrN _) => Raise AttributeError
  | None => Raise KeyError
  end.

Definition all_subscribed_alarms : M (list Dict) :=
  fun env =>
    let '(r, env') :=
      run_pages all_subscribed_alarms_item (scan_source env) ∅ env in
    (after_try r values_by_key, env').

(** *** get_cloudwatch_alarms_region *)

(** [alarms.append(filtered_alarm(alarm))] *)
Definition get_cloudwatch_alarms_region_item (alarms : list Dict)
    (alarm : RawAlarm) : Outcome (list Dict) :=
  match filtered_alarm alarm with
  | Ret filtered => Ret (alarms ++ [filtered])
  | Raise e => Raise e
  end.

Definition get_cloudwatch_alarms_region (region : string)
    : M (list Dict) :=
  fun env =>
    let region := unquote region in
    let '(r, env') :=
      run_pages get_cloudwatch_alarms_region_item
        (default [] (metric_alarms env !! region)) [] env in
    (after_try r id, env').

(** *** get_cloudwatch_events_state *)

(** One query, no loop and no [try]: the first page is the result. *)
Definition get_cloudwatch_events_state (state : string) : M (list Dict) :=
  fun env =>
    let source :=
      filter (fun d : Dict => d !! "alarm_state" = Some (AttrS state))
             (events env) in
    let env' := set_script (tail (script env)) env in
    match respond (default Rest (head (script env))) source with
    | Ret (page, _) => (Ret page, env')
    | Raise e => (Raise e, env')
    end.

(** *** subscribers_to_alarm *)

Definition subscribers_to_alarm_item (subscribers : gset string)
    (item : Dict) : Outcome (gset string) :=
  match item !! "ResourceArn" with
  | Some (AttrS arn) => Ret ({[arn]} ∪ subscribers)
  | Some (AttrN _) => Raise TypeError
  | None => Raise KeyError
  end.

Definition subscribers_to_alarm (alarm_name region : string)
    : M (list string) :=
  fun env =>
    let alarm_name := unquote alarm_name in
    let region := unquote region in
    let region_alarm_name := Str.format_colon region alarm_name in
    let '(r, env') :=
      run_pages subscribers_to_alarm_item
        (query_source RegionAlarmNameIndex region_alarm_name env) ∅ env in
    (after_try r sorted, env').

(** *** incoming_cloudwatch_alarm *)

(** The item written for one subscriber; the dict display evaluates its
    values in order, so the first missing field raises. *)
Definition alarm_item (region_alarm_name resource_arn : string)
    (alarm : Payload) (updated : Z) : M Dict :=
  state <- expect KeyError (msg_NewStateValue alarm) ;;
  namespace <- expect KeyError (msg_Trigger_Namespace alarm) ;;
  changed <- expect KeyError (msg_StateChangeTime alarm) ;;
  state_updated <- expect ValueError (strptime_timestamp changed) ;;
  ret (<["RegionAlarmName" := AttrS region_alarm_name]>
      (<["ResourceArn" := AttrS resource_arn]>
      (<["StateValue" := AttrS state]>
      (<["Namespace" := AttrS namespace]>
      (<["StateUpdated" := AttrN state_updated]>
      (<["Updated" := AttrN updated]> (∅ : Dict))))))).

(** The body of the loop over [event["Records"]]. *)
Definition incoming_record (updated : Z) (record : Notification)
    : M unit :=
  region <- expect IndexError
              (Str.split (EventSubscriptionArn record) !! 3%nat) ;;
  alarm <- expect ValueError (json_loads (Sns_Message record)) ;;
  name <- expect KeyError (msg_AlarmName alarm) ;;
  let region_alarm_name := Str.format_colon region name in
  subscribers <- subscribers_to_alarm name region ;;
  for_each (fun resource_arn =>
              item <- alarm_item region_alarm_name resource_arn alarm
                        updated ;;
              put_item item)
           subscribers.

Definition incoming_cloudwatch_alarm (event : list Notification)
    : M bool :=
  try_except
    (fun env => for_each (incoming_record (clock env)) event env)
    (ret tt) ;;;
  ret true.

(** *** subscribe_resource_to_alarm, unsubscribe_resource_to_alarm *)

Definition key_item (region_alarm_name resource_arn : string) : Dict :=
  <["RegionAlarmName" := AttrS region_alarm_name]>
    (<["ResourceArn" := AttrS resource_arn]> ∅).

Definition subscribe_resource_to_alarm (request : list string)
    (alarm_name region : string) : M bool :=
  try_except
    (let alarm_name := unquote alarm_name in
     let region := unquote region in
     let region_alarm_name := Str.format_colon region alarm_name in
     for_each (fun resource_arn =>
                 put_item (key_item region_alarm_name resource_arn))
              request ;;;
     ret true)
    (ret false).

Definition unsubscribe_resource_to_alarm (request : list string)
    (alarm_name region : string) : M bool :=
  try_except
    (let alarm_name := unquote alarm_name in
     let region := unquote region in
     let region_alarm_name := Str.format_colon region alarm_name in
     for_each (fun resource_arn =>
                 delete_item (key_item region_alarm_name resource_arn))
              request ;;;
     ret true)
    (ret false).

(** *** subscribed_with_state *)

Definition new_entry (arn : string) : Dict :=
  <["ResourceArn" := AttrS arn]> (<["AlarmCount" := AttrN 1]> ∅).

Definition subscribed_with_state_item (resources : list (string * Dict))
    (item : Dict) : Outcome (list (string * Dict)) :=
  match item !! "ResourceArn" with
  | Some (AttrS arn) =>
      match od_get arn resources with
      | Some entry =>
          match entry !! "AlarmCount" with
          | Some (AttrN n) =>
              Ret (od_set arn (<["AlarmCount" := AttrN (n + 1)]> entry)
                          resources)
          | Some (AttrS _) => Raise TypeError
          | None => Raise KeyError
          end
      | None => Ret (od_set arn (new_entry arn) resources)
      end
  | Some (AttrN _) => Raise TypeError
  | None => Raise KeyError
  end.

Definition subscribed_with_state (alarm_state : string) : M (list Dict) :=
  fun env =>
    let alarm_state := unquote alarm_state in
    let '(r, env') :=
      run_pages subscribed_with_state_item
        (query_source StateValueIndex alarm_state env) [] env in
    (after_try r (map snd), env').

End Handlers.

(** ** Library functions on the inputs of the examples

    The examples below need values of the library functions.
    [percent_decode] is [unquote] on strings whose escapes decode to ASCII:
    each [%XX] with two hexadecimal digits becomes the byte it names, and
    everything else is kept.  The decoders of the examples are defined on
    the one message and the one timestamp they use. *)

Definition hex_value (c : ascii) : option N :=
  let n := N_of_ascii c in
  if ((48 <=? n) && (n <=? 57))%N then Some (n - 48)%N
  else if ((65 <=? n) && (n <=? 70))%N then Some (n - 55)%N
  else if ((97 <=? n) && (n <=? 102))%N then Some (n - 87)%N
  else None.

Fixpoint percent_decode (s : string) : string :=
  match s with
  | EmptyString => EmptyString
  | String c r =>
      let keep := String c (percent_decode r) in
      if Ascii.eqb c "%"%char then
        match r with
        | String h (String l r') =>
            match hex_value h, hex_value l with
            | Some a, Some b =>
                String (ascii_of_N (16 * a + b)) (percent_decode r')
            | _, _ => keep
            end
        | _ => keep
        end
      else keep
  end.

(** ** Notions used to state the properties *)

Section Delivered.
Context {T A : Type} (body : A -> T -> Outcome A).

(** The items the store hands over before the loop ends, and whether it
    ends on a failed request. *)
Fixpoint delivered (source : list T) (s : list Decision) : list T * bool :=
  match s with
  | [] => (source, false)
  | Fault :: _ => ([], true)
  | Rest :: _ => (source, false)
  | Limit n :: s' =>
      let '(l, f) := delivered (drop n source) s' in
      (take n source ++ l, f)
  end.

(** The loop over the delivered items, then the store's failure if any. *)
Definition conclude (source : list T) (acc : A) (s : list Decision)
    : A * option Exn :=
  match for_items body acc (delivered source s).1 with
  | (acc', None) =>
      (acc', if (delivered source s).2 then Some ClientError else None)
  | r => r
  end.

End Delivered.

(** A subscription is an item with the key (RegionAlarmName, ResourceArn). *)
Definition subscribed (ran arn : string) (t : list Item) : Prop :=
  exists it, it ∈ t /\ key_RegionAlarmName it = ran /\ key_ResourceArn it = arn.

(** The items a lookup of (alarm_name, region) reads before it ends. *)
Definition subscribers_read (unquote : string -> string)
    (alarm_name region : string) (env : Env)
    : list Item :=
  (delivered
     (filter (fun it =>
                index_eq RegionAlarmNameIndex
                  (Str.format_colon (unquote region) (unquote alarm_name))
                  it = true)
             (table env))
     (script env)).1.

(** One page of a script split into two: a page that is followed by
    another, the last page, or the last page of an exhausted script. *)
Inductive split_page : list Decision -> list Decision -> Prop :=
  | split_inner s1 a b s2 :
      split_page (s1 ++ Limit (a + b) :: s2)
                 (s1 ++ Limit a :: Limit b :: s2)
  | split_last s1 a s2 :
      split_page (s1 ++ Rest :: s2) (s1 ++ Limit a :: Rest :: s2)
  | split_end s1 a :
      split_page s1 (s1 ++ [Limit a]).

(** The key string of an entry that holds Region and AlarmName. *)
Definition alarm_key (entry : Dict) : string :=
  match entry !! "Region", entry !! "AlarmName" with
  | Some (AttrS region), Some (AttrS name) => Str.format_colon region name
  | _, _ => EmptyString
  end.

(** The shape shared by the item loops of [alarms_for_subscriber] and
    [all_subscribed_alarms]: the entry [entry region name item] is stored
    under the item's RegionAlarmName. *)
Definition keyed_item (entry : string -> string -> Dict -> Dict)
    (alarms : gmap string Dict) (item : Dict) : Outcome (gmap string Dict) :=
  match item !! "RegionAlarmName" with
  | Some (AttrS ran) =>
      match Str.split1 ran with
      | region :: name :: _ => Ret (<[ran := entry region name item]> alarms)
      | _ => Raise IndexError
      end
  | Some (AttrN _) => Raise AttributeError
  | None => Raise KeyError
  end.

Definition subscriber_entry (region name : string) (item : Dict) : Dict :=
  delete "Updated" (delete "RegionAlarmName" (delete "ResourceArn"
    (<["AlarmName" := AttrS name]> (<["Region" := AttrS region]> item)))).

Definition alarm_entry (region name : string) (_ : Dict) : Dict :=
  <["Region" := AttrS region]> (<["AlarmName" := AttrS name]> ∅).

(** The entry stored for an item whose RegionAlarmName holds a colon. *)
Definition entry_of (entry : string -> string -> Dict -> Dict) (it : Item)
    : Dict :=
  match Str.cut (key_RegionAlarmName it) with
  | Some (region, name) => entry region name (to_dict it)
  | None => ∅
  end.

(** One turn of such a loop on an item whose RegionAlarmName holds a
    colon. *)
Definition store_entry (entry : string -> string -> Dict -> Dict)
    (m : gmap string Dict) (it : Item) : gmap string Dict :=
  <[key_RegionAlarmName it := entry_of entry it]> m.

(** The last item of a list with the given RegionAlarmName. *)
Definition last_named (ran : string) (l : list Item) : option Item :=
  last (filter (fun it => key_RegionAlarmName it = ran) l).

(** The items a query of a resource's alarms reads before it ends. *)
Definition alarms_read (unquote : string -> string) (resource_arn : string)
    (env : Env) : list Item :=
  (delivered
     (filter (fun it =>
                index_eq ResourceArnIndex (unquote resource_arn) it = true)
             (table env))
     (script env)).1.

(** The items a scan of the table reads before it ends. *)
Definition scan_read (env : Env) : list Item :=
  (delivered (table env) (script env)).1.

(** What the specification says of a returned view of a stored item. *)
Definition is_view (it : Item) (view : Dict) : Prop :=
  (exists region name,
     Str.cut (key_RegionAlarmName it) = Some (region, name) /\
     key_RegionAlarmName it = Str.format_colon region name /\
     Str.has_colon region = false /\
     view !! "Region" = Some (AttrS region) /\
     view !! "AlarmName" = Some (AttrS name)) /\
  view !! "ResourceArn" = None /\
  view !! "RegionAlarmName" = None /\
  view !! "Updated" = None /\
  (forall k, k ∉ ["Region"; "AlarmName"; "ResourceArn"; "RegionAlarmName";
                  "Updated"] ->
             view !! k = attributes it !! k).

(** The entry [subscribed_with_state] returns for a resource. *)
Definition state_entry (arn : string) (n : Z) : Dict :=
  <["ResourceArn" := AttrS arn]> (<["AlarmCount" := AttrN n]> ∅).

(** The items a query of the state index reads before it ends. *)
Definition state_read (unquote : string -> string) (alarm_state : string)
    (env : Env) : list Item :=
  (delivered
     (filter (fun it =>
                index_eq StateValueIndex (unquote alarm_state) it = true)
             (table env))
     (script env)).1.

(** The number of items of a list that belong to a resource. *)
Definition alarm_count (arn : string) (l : list Item) : Z :=
  Z.of_nat (length (filter (fun it => key_ResourceArn it = arn) l)).

(** The counters behind [resources]: one turn of the loop, and the
    dictionary of entries that a list of counters stands for. *)
Definition bump (counts : list (string * Z)) (it : Item)
    : list (string * Z) :=
  match od_get (key_ResourceArn it) counts with
  | Some n => od_set (key_ResourceArn it) (n + 1) counts
  | None => od_set (key_ResourceArn it) 1 counts
  end.

Definition entries_of (counts : list (string * Z)) : list (string * Dict) :=
  (fun p => (p.1, state_entry p.1 p.2)) <$> counts.

(** *** Notions about notifications *)

(** What the handler takes from a record whose parts are all there. *)
Record Parsed := mkParsed {
  p_region : string;
  p_name : string;
  p_state : string;
  p_namespace : string;
  p_state_updated : Z
}.

Definition parse_record (json_loads : string -> option Payload)
    (strptime_timestamp : string -> option Z) (record : Notification)
    : option Parsed :=
  region ← Str.split (EventSubscriptionArn record) !! 3%nat;
  alarm ← json_loads (Sns_Message record);
  name ← msg_AlarmName alarm;
  state ← msg_NewStateValue alarm;
  namespace ← msg_Trigger_Namespace alarm;
  changed ← msg_StateChangeTime alarm;
  state_updated ← strptime_timestamp changed;
  Some (mkParsed region name state namespace state_updated).

(** The RegionAlarmName the handler writes for a record. *)
Definition p_ran (p : Parsed) : string :=
  Str.format_colon (p_region p) (p_name p).

(** Region and name are left as they are by [unquote]. *)
Definition plain (unquote : string -> string) (p : Parsed) : Prop :=
  unquote (p_region p) = p_region p /\ unquote (p_name p) = p_name p.

(** The item the handler stores for a subscriber. *)
Definition new_item (p : Parsed) (arn : string) (updated : Z) : Item :=
  mkItem (p_ran p) arn
    (<["StateValue" := AttrS (p_state p)]>
    (<["Namespace" := AttrS (p_namespace p)]>
    (<["StateUpdated" := AttrN (p_state_updated p)]>
    (<["Updated" := AttrN updated]> ∅)))).

(** A record applied to one item of the table. *)
Definition update_for (p : Parsed) (updated : Z) (it : Item) : Item :=
  if decide (key_RegionAlarmName it = p_ran p)
  then new_item p (key_ResourceArn it) updated
  else it.

(** A batch applied to one item of the table, record after record. *)
Definition update_all (ps : list Parsed) (updated : Z) (it : Item) : Item :=
  foldl (fun x p => update_for p updated x) it ps.


(** [put_item] on a key that the table holds. *)
Definition replace_item (it : Item) (t : list Item) : list Item :=
  (fun old => if same_key it old then it else old) <$> t.

(** A record that meets the notification contract: its subscription
    identifier has a fourth field, its message decodes and holds the four
    fields, and its timestamp has the expected format. *)
Definition parsed (json_loads : string -> option Payload)
    (strptime_timestamp : string -> option Z) (record : Notification)
    : Prop :=
  is_Some (parse_record json_loads strptime_timestamp record).

(** A record that meets the contract and whose region and alarm name hold
    no percent escape. *)
Definition well_formed (unquote : string -> string)
    (json_loads : string -> option Payload)
    (strptime_timestamp : string -> option Z) (record : Notification)
    : Prop :=
  exists p, parse_record json_loads strptime_timestamp record = Some p /\
            plain unquote p.

(** ** Examples

    A notification of the alarm [name] going to [state], as SNS delivers
    it, with the subscription identifier and the timestamp format of the
    specification. *)

Definition example_time : string := "2021-06-01T12:00:00.123456+0000".

Definition example_epoch : Z := 1622548800.

Definition quoted (s : string) : string :=
  String "034"%char (s +:+ String "034"%char EmptyString).

Definition alarm_message (name state : string) : string :=
  "{" +:+ quoted "AlarmName" +:+ ":" +:+ quoted name +:+ "," +:+
  quoted "NewStateValue" +:+ ":" +:+ quoted state +:+ "," +:+
  quoted "StateChangeTime" +:+ ":" +:+ quoted example_time +:+ "," +:+
  quoted "Trigger" +:+ ":{" +:+ quoted "Namespace" +:+ ":" +:+
  quoted "AWS/EC2" +:+ "}}".

Definition example_payload (name state : string) : Payload :=
  mkPayload (Some name) (Some state) (Some "AWS/EC2") (Some example_time).

(** The alarm messages of the examples. *)
Definition example_alarms : list (string * string) :=
  [("HighCPU", "ALARM"); ("HighCPU", "OK"); ("LowDisk", "ALARM");
   ("Disk%20Full", "ALARM")].

(** [json.loads] on the messages of the examples. *)
Definition example_json_loads (s : string) : option Payload :=
  match find (fun a => String.eqb s (alarm_message a.1 a.2)) example_alarms
  with
  | Some a => Some (example_payload a.1 a.2)
  | None => None
  end.

(** The timestamp of the examples, parsed. *)
Definition example_strptime (s : string) : option Z :=
  if String.eqb s example_time then Some example_epoch else None.

Definition example_record (name state : string) : Notification :=
  mkNotification "arn:aws:sns:us-east-1:123:topic" (alarm_message name state).

(** An environment with the given table, script and clock. *)
Definition example_env (t : list Item) (s : list Decision) (now : Z) : Env :=
  mkEnv t [] ∅ s now [].

Definition subscription (ran arn : string) : Item := mkItem ran arn ∅.

(** A subscription after a notification. *)
Definition notified (ran arn state : string) (updated : Z) : Item :=
  mkItem ran arn
    (<["StateValue" := AttrS state]>
    (<["Namespace" := AttrS "AWS/EC2"]>
    (<["StateUpdated" := AttrN example_epoch]>
    (<["Updated" := AttrN updated]> ∅)))).

(** [int(dt.timestamp())] on the instants of the examples, which lie in
    2021: there the float holds the microseconds, and truncation gives the
    whole seconds. *)
Definition example_epoch_seconds (microseconds : Z) : Z :=
  Z.quot microseconds 1000000.

Definition example_alarm (name : string) : RawAlarm :=
  mkRawAlarm (Some ("arn:aws:cloudwatch:us-east-1:123:alarm:" +:+ name))
             (Some name) (Some "CPUUtilization") (Some "AWS/EC2") (Some "OK")
             (Some 1622548800123456).

(** [filtered_alarm] of [example_alarm name]. *)
Definition example_filtered (name : string) : Dict :=
  <["AlarmArn" :=
      AttrS ("arn:aws:cloudwatch:us-east-1:123:alarm:" +:+ name)]>
  (<["AlarmName" := AttrS name]>
  (<["MetricName" := AttrS "CPUUtilization"]>
  (<["Namespace" := AttrS "AWS/EC2"]>
  (<["StateValue" := AttrS "OK"]>
  (<["StateUpdated" := AttrN example_epoch]> ∅))))).

(** An alarm on a metric-math expression: no MetricName, no Namespace. *)
Definition math_alarm (name : string) : RawAlarm :=
  mkRawAlarm (Some ("arn:aws:cloudwatch:us-east-1:123:alarm:" +:+ name))
             (Some name) None None (Some "OK") (Some 1622548800123456).

(** An environment whose CloudWatch holds the given alarms in us-east-1. *)
Definition alarms_env (alarms : list RawAlarm) (s : list Decision) : Env :=
  mkEnv [] [] {["us-east-1" := alarms]} s 0 [].

(** *** Notions about write requests *)

(** The item is one that a request for the resources [request] under the
    alarm [ran] names. *)
Definition named_by (ran : string) (request : list string) (it : Item)
    : Prop :=
  key_RegionAlarmName it = ran /\ key_ResourceArn it ∈ request.

#[export] Instance named_by_dec ran request it :
  base.Decision (named_by ran request it).
Proof. unfold named_by. apply _. Defined.

(** The names of a list in the order of their first occurrence. *)
Definition first_occurrences (l : list string) : list string :=
  foldl (fun seen x => if decide (x ∈ seen) then seen else seen ++ [x]) [] l.

(** The primary key of an item. *)
Definition item_key (it : Item) : string * string :=
  (key_RegionAlarmName it, key_ResourceArn it).

(** The events a query of the events table for a state matches. *)
Definition events_in_state (state : string) (env : Env) : list Dict :=
  filter (fun d : Dict => d !! "alarm_state" = Some (AttrS state))
         (events env).

(** An environment whose events table holds the given events. *)
Definition events_env (evs : list Dict) (s : list Decision) : Env :=
  mkEnv [] evs ∅ s 0 [].

(** An event of a pipeline in the state "set". *)
Definition example_event (id : string) : Dict :=
  <["alarm_state" := AttrS "set"]> (<["alarm_id" := AttrS id]> ∅).

(** A message that holds an alarm name and nothing else, and [json.loads]
    on it. *)
Definition bare_message (name : string) : string :=
  "{" +:+ quoted "AlarmName" +:+ ":" +:+ quoted name +:+ "}".

Definition bare_json_loads (s : string) : option Payload :=
  if String.eqb s (bare_message "HighCPU")
  then Some (mkPayload (Some "HighCPU") None None None)
  else None.

(** * Properties *)

(** ** The order on strings *)

Section StrOrder.

Lemma ascii_compare_refl c : Ascii.compare c c = Eq.
Proof. unfold Ascii.compare. apply N.compare_refl. Qed.

Lemma ascii_compare_trans c1 c2 c3 o :
  Ascii.compare c1 c2 = o -> Ascii.compare c2 c3 = o ->
  Ascii.compare c1 c3 = o.
Proof.
  unfold Ascii.compare. destruct o; intros H1 H2.
  - apply N.compare_eq_iff in H1. apply N.compare_eq_iff in H2.
    apply N.compare_eq_iff. congruence.
  - apply N.compare_lt_iff in H1. apply N.compare_lt_iff in H2.
    apply N.compare_lt_iff. by etrans.
  - apply N.compare_gt_iff in H1. apply N.compare_gt_iff in H2.
    apply N.compare_gt_iff. by etrans.
Qed.

Lemma str_compare_refl s : String.compare s s = Eq.
Proof.
  induction s as [|c s IH]; simpl; [done|].
  by rewrite ascii_compare_refl.
Qed.

Lemma str_compare_lt_trans s1 : forall s2 s3,
  String.compare s1 s2 = Lt -> String.compare s2 s3 = Lt ->
  String.compare s1 s3 = Lt.
Proof.
  induction s1 as [|c1 s1 IH]; intros [|c2 s2] [|c3 s3]; simpl; try done.
  destruct (Ascii.compare c1 c2) eqn:E12; try done;
    destruct (Ascii.compare c2 c3) eqn:E23; try done; intros H1 H2.
  - rewrite (ascii_compare_trans _ _ _ _ E12 E23). eauto.
  - apply Ascii.compare_eq_iff in E12. subst c2. by rewrite E23.
  - apply Ascii.compare_eq_iff in E23. subst c3. by rewrite E12.
  - by rewrite (ascii_compare_trans _ _ _ _ E12 E23).
Qed.

Lemma str_le_lteq a b : Str.le a b <-> Str.lt a b \/ a = b.
Proof.
  unfold Str.le, Str.lt, String.leb, String.ltb.
  destruct (String.compare a b) eqn:E; split; intros H; auto; try done.
  - right. by apply String.compare_eq_iff.
  - destruct H as [H|H]; [done|]. subst b.
    by rewrite str_compare_refl in E.
Qed.

Lemma str_lt_irrefl a : ~ Str.lt a a.
Proof. unfold Str.lt, String.ltb. by rewrite str_compare_refl. Qed.

Lemma str_lt_trans a b c : Str.lt a b -> Str.lt b c -> Str.lt a c.
Proof.
  unfold Str.lt, String.ltb. intros H1 H2.
  destruct (String.compare a b) eqn:E1; try done.
  destruct (String.compare b c) eqn:E2; try done.
  by rewrite (str_compare_lt_trans _ _ _ E1 E2).
Qed.

#[export] Instance str_le_total : Total Str.le.
Proof. intros a b. apply String.leb_total. Qed.

#[export] Instance str_le_trans : Transitive Str.le.
Proof.
  intros a b c [H1| ->]%str_le_lteq [H2| ->]%str_le_lteq;
    apply str_le_lteq; eauto using str_lt_trans.
Qed.

#[export] Instance str_le_antisym : AntiSymm (=) Str.le.
Proof. intros a b. apply String.leb_antisym. Qed.

#[export] Instance str_lt_transitive : Transitive Str.lt.
Proof. intros a b c. apply str_lt_trans. Qed.

(** [sorted] lists every element once, in strictly increasing order. *)

Lemma elem_of_sorted xs x : x ∈ sorted xs <-> x ∈ xs.
Proof.
  unfold sorted. rewrite merge_sort_Permutation. apply elem_of_elements.
Qed.

Lemma NoDup_sorted xs : NoDup (sorted xs).
Proof.
  unfold sorted. rewrite merge_sort_Permutation. apply NoDup_elements.
Qed.

Lemma StronglySorted_le_lt (l : list string) :
  StronglySorted Str.le l -> NoDup l -> StronglySorted Str.lt l.
Proof.
  induction 1 as [|x l Hl IH Hx]; intros Hnd; constructor.
  - apply IH. by apply NoDup_cons in Hnd as [_ ?].
  - apply NoDup_cons in Hnd as [Hnx _].
    apply Forall_forall. intros y Hy.
    rewrite Forall_forall in Hx.
    destruct (proj1 (str_le_lteq x y) (Hx y Hy)) as [?| ->]; done.
Qed.

Lemma sorted_strict xs : StronglySorted Str.lt (sorted xs).
Proof.
  apply StronglySorted_le_lt; [|apply NoDup_sorted].
  unfold sorted. apply StronglySorted_merge_sort; apply _.
Qed.

End StrOrder.

(** ** Facts about the paginated loop *)

Section PagesFacts.
Context {T A : Type} (body : A -> T -> Outcome A).

Lemma for_items_app acc l1 l2 :
  for_items body acc (l1 ++ l2) =
  match for_items body acc l1 with
  | (acc', None) => for_items body acc' l2
  | r => r
  end.
Proof.
  revert acc. induction l1 as [|x l1 IH]; intros acc; simpl; [done|].
  destruct (body acc x); [apply IH|done].
Qed.

Lemma paginate_conclude s : forall source acc,
  (paginate body source acc s).1 = conclude body source acc s.
Proof.
  unfold conclude.
  induction s as [|d s IH]; intros source acc; simpl.
  - by destruct (for_items body acc source) as [? [?|]].
  - destruct d as [|n|]; simpl.
    + done.
    + destruct (delivered (drop n source) s) as [l f] eqn:E.
      simpl. rewrite for_items_app.
      destruct (for_items body acc (take n source)) as [acc' [e|]] eqn:E1;
        [done|].
      rewrite IH, E. done.
    + by destruct (for_items body acc source) as [? [?|]].
Qed.

Lemma delivered_prefix s : forall source : list T,
  (delivered source s).1 `prefix_of` source.
Proof.
  induction s as [|d s IH]; intros source; simpl; [done|].
  destruct d as [|n|]; simpl; [apply prefix_nil| |done].
  specialize (IH (drop n source)).
  destruct (delivered (drop n source) s) as [l f]. simpl in *.
  destruct IH as [k Hk]. exists k.
  by rewrite <- (assoc_L (++)), <- Hk, take_drop.
Qed.

Lemma delivered_no_fault s : forall source : list T,
  Fault ∉ s -> delivered source s = (source, false).
Proof.
  induction s as [|d s IH]; intros source Hs; simpl; [done|].
  apply not_elem_of_cons in Hs as [Hd Hs].
  destruct d as [|n|]; [done| |done].
  rewrite IH by done. by rewrite take_drop.
Qed.

(** The script left over is a suffix of the script. *)
Lemma paginate_script s : forall source acc,
  (paginate body source acc s).2 `suffix_of` s.
Proof.
  induction s as [|d s IH]; intros source acc; simpl; [done|].
  destruct (respond d source) as [[page [rest|]]|e]; simpl.
  - destruct (for_items body acc page) as [acc' [e|]]; simpl.
    + by apply suffix_cons_r.
    + by apply suffix_cons_r, IH.
  - by apply suffix_cons_r.
  - by apply suffix_cons_r.
Qed.

(** Where a page ends does not change what is delivered. *)
Lemma delivered_split_page s1 a b s2 : forall source : list T,
  delivered source (s1 ++ Limit (a + b) :: s2) =
  delivered source (s1 ++ Limit a :: Limit b :: s2).
Proof.
  induction s1 as [|d s1 IH]; intros source; simpl.
  - rewrite drop_drop.
    destruct (delivered (drop (a + b) source) s2) as [l f].
    by rewrite (assoc_L (++)), take_take_drop.
  - destruct d as [|n|]; [done| |done]. by rewrite IH.
Qed.

Lemma delivered_split_last s1 a s2 : forall source : list T,
  delivered source (s1 ++ Rest :: s2) =
  delivered source (s1 ++ Limit a :: Rest :: s2).
Proof.
  induction s1 as [|d s1 IH]; intros source; simpl.
  - by rewrite take_drop.
  - destruct d as [|n|]; [done| |done]. by rewrite IH.
Qed.

Lemma delivered_split_end s1 a : forall source : list T,
  delivered source s1 = delivered source (s1 ++ [Limit a]).
Proof.
  induction s1 as [|d s1 IH]; intros source; simpl.
  - by rewrite take_drop.
  - destruct d as [|n|]; [done| |done]. by rewrite IH.
Qed.

End PagesFacts.

Lemma delivered_fmap {T U} (f : T -> U) s : forall source : list T,
  delivered (f <$> source) s =
  (f <$> (delivered source s).1, (delivered source s).2).
Proof.
  induction s as [|d s IH]; intros source; simpl; [done|].
  destruct d as [|n|]; [done| |done].
  rewrite <- fmap_drop, IH.
  destruct (delivered (drop n source) s) as [l b]. simpl.
  by rewrite fmap_app, fmap_take.
Qed.

(** ** Facts about items and writes *)

Lemma to_dict_RegionAlarmName it :
  to_dict it !! "RegionAlarmName" = Some (AttrS (key_RegionAlarmName it)).
Proof. unfold to_dict. by rewrite lookup_insert_eq. Qed.

Lemma to_dict_ResourceArn it :
  to_dict it !! "ResourceArn" = Some (AttrS (key_ResourceArn it)).
Proof.
  unfold to_dict. rewrite lookup_insert_ne by done.
  by rewrite lookup_insert_eq.
Qed.

Lemma to_dict_other it k :
  k ≠ "RegionAlarmName" -> k ≠ "ResourceArn" ->
  to_dict it !! k = attributes it !! k.
Proof.
  intros H1 H2. unfold to_dict. by rewrite !lookup_insert_ne.
Qed.

Lemma same_key_true a b :
  same_key a b = true <->
  key_RegionAlarmName a = key_RegionAlarmName b /\
  key_ResourceArn a = key_ResourceArn b.
Proof.
  unfold same_key. rewrite andb_true_iff, !bool_decide_eq_true. done.
Qed.

Lemma elem_of_upsert it t : it ∈ upsert it t.
Proof.
  unfold upsert. destruct (existsb (same_key it) t) eqn:E.
  - apply existsb_exists in E as (old & Hold & Hk).
    apply list_elem_of_fmap. exists old. rewrite Hk.
    split; [done|]. by apply list_elem_of_In.
  - apply elem_of_app. right. by apply list_elem_of_singleton.
Qed.

Lemma subscribed_upsert it ran arn t :
  subscribed ran arn t -> subscribed ran arn (upsert it t).
Proof.
  intros (x & Hx & Hr & Ha). unfold upsert.
  destruct (existsb (same_key it) t) eqn:E.
  - destruct (same_key it x) eqn:Ek.
    + exists it. pose proof (proj1 (same_key_true it x) Ek) as [E1 E2].
      split; [|split; congruence]. apply list_elem_of_fmap. exists x.
      by rewrite Ek.
    + exists x. split; [|done]. apply list_elem_of_fmap. exists x.
      by rewrite Ek.
  - exists x. split; [|done]. apply elem_of_app. by left.
Qed.

Lemma not_subscribed_remove_key it t :
  ~ subscribed (key_RegionAlarmName it) (key_ResourceArn it)
      (remove_key it t).
Proof.
  intros (x & Hx & Hr & Ha). unfold remove_key in Hx.
  apply list_elem_of_filter in Hx as [Hk _].
  rewrite (proj2 (same_key_true it x)) in Hk; done.
Qed.

Lemma not_subscribed_remove_key_more it ran arn t :
  ~ subscribed ran arn t -> ~ subscribed ran arn (remove_key it t).
Proof.
  intros Hn (x & Hx & Hr & Ha). apply Hn. exists x.
  split; [|done]. unfold remove_key in Hx.
  by apply list_elem_of_filter in Hx as [_ ?].
Qed.

Lemma of_dict_key_item ran arn :
  of_dict (key_item ran arn) = Some (mkItem ran arn ∅).
Proof.
  unfold of_dict, key_item.
  rewrite lookup_insert_eq, lookup_insert_ne, lookup_insert_eq by done.
  done.
Qed.

(** What a write request that returns has done. *)
Lemma write_request_returns w d change env env' :
  write_request w d change env = (Ret tt, env') ->
  exists it, of_dict d = Some it /\
    table env' = change it (table env) /\
    script env' = tail (script env) /\
    head (script env) ≠ Some Fault.
Proof.
  unfold write_request. simpl.
  destruct (head (script env)) as [[|n|]|] eqn:Eh;
    destruct (of_dict d) as [it|]; intros [= <-]; exists it; done.
Qed.

(** What a write request that raises has done: nothing to the table. *)
Lemma write_request_raises w d change env e env' :
  write_request w d change env = (Raise e, env') ->
  e = ClientError /\ table env' = table env /\
  script env' = tail (script env).
Proof.
  unfold write_request. simpl.
  destruct (head (script env)) as [[|n|]|] eqn:Eh;
    destruct (of_dict d) as [it|]; intros [= <- <-]; done.
Qed.

Section RegistryFacts.
Variable unquote : string -> string.

Lemma subscribers_loop (l : list Item) (acc : gset string) :
  for_items subscribers_to_alarm_item acc (to_dict <$> l) =
  (list_to_set (key_ResourceArn <$> l) ∪ acc, None).
Proof.
  revert acc. induction l as [|it l IH]; intros acc; simpl.
  - f_equal. set_solver.
  - unfold subscribers_to_alarm_item at 1.
    rewrite to_dict_ResourceArn, IH. f_equal. set_solver.
Qed.

(** The lookup never raises: it returns the sorted resource names of the
    items it read, and leaves the table as it was. *)
Lemma subscribers_to_alarm_run alarm_name region env :
  exists s', s' `suffix_of` script env /\
    subscribers_to_alarm unquote alarm_name region env =
    (Ret (sorted (list_to_set
            (key_ResourceArn <$>
               subscribers_read unquote alarm_name region env))),
     set_script s' env).
Proof.
  unfold subscribers_to_alarm, run_pages, subscribers_read, query_source.
  match goal with
  | |- context [paginate ?b ?src ?acc ?s] =>
      pose proof (paginate_conclude b s src acc) as Hc;
      pose proof (paginate_script b s src acc) as Hs;
      destruct (paginate b src acc s) as [r s'] eqn:E
  end.
  simpl in Hc, Hs. exists s'. split; [done|]. f_equal. subst r.
  unfold conclude. rewrite delivered_fmap. simpl.
  rewrite subscribers_loop.
  replace (_ ∪ ∅) with
    (list_to_set (C := gset string) (key_ResourceArn <$>
       (delivered
          (filter (fun it =>
             index_eq RegionAlarmNameIndex
               (Str.format_colon (unquote region) (unquote alarm_name))
               it = true) (table env)) (script env)).1))
    by set_solver.
  by destruct (delivered _ _).2.
Qed.

End RegistryFacts.

(** ** Subscribing, looking up, unsubscribing *)

Section Registry.
Variable unquote : string -> string.

Lemma subscribers_read_sound alarm_name region env arn :
  arn ∈ key_ResourceArn <$> subscribers_read unquote alarm_name region env ->
  subscribed (Str.format_colon (unquote region) (unquote alarm_name)) arn
    (table env).
Proof.
  unfold subscribers_read. intros (it & -> & Hit)%list_elem_of_fmap.
  match type of Hit with
  | _ ∈ (delivered ?src ?s).1 =>
      destruct (delivered_prefix s src) as [k Hk]
  end.
  assert (it ∈ filter (fun it =>
            index_eq RegionAlarmNameIndex
              (Str.format_colon (unquote region) (unquote alarm_name))
              it = true) (table env)) as Hin.
  { rewrite Hk. apply elem_of_app. by left. }
  apply list_elem_of_filter in Hin as [Hi Hin].
  exists it. split; [done|]. split; [|done].
  simpl in Hi. by apply bool_decide_eq_true in Hi.
Qed.

Lemma subscribers_read_complete alarm_name region env arn :
  Fault ∉ script env ->
  subscribed (Str.format_colon (unquote region) (unquote alarm_name)) arn
    (table env) ->
  arn ∈ key_ResourceArn <$> subscribers_read unquote alarm_name region env.
Proof.
  intros Hs (it & Hit & Hr & Ha). unfold subscribers_read.
  rewrite delivered_no_fault by done. simpl.
  apply list_elem_of_fmap. exists it. split; [done|].
  apply list_elem_of_filter. split; [|done].
  simpl. by apply bool_decide_eq_true.
Qed.

Lemma subscribe_returns request alarm_name region env env1 :
  subscribe_resource_to_alarm unquote request alarm_name region env
    = (Ret true, env1) ->
  for_each (fun resource_arn =>
              put_item (key_item
                (Str.format_colon (unquote region) (unquote alarm_name))
                resource_arn)) request env = (Ret tt, env1).
Proof.
  unfold subscribe_resource_to_alarm, try_except, bind, ret.
  destruct (for_each _ request env) as [[[]|e] env'];
    [|destruct e]; by intros [= <-].
Qed.

Lemma unsubscribe_returns request alarm_name region env env1 :
  unsubscribe_resource_to_alarm unquote request alarm_name region env
    = (Ret true, env1) ->
  for_each (fun resource_arn =>
              delete_item (key_item
                (Str.format_colon (unquote region) (unquote alarm_name))
                resource_arn)) request env = (Ret tt, env1).
Proof.
  unfold unsubscribe_resource_to_alarm, try_except, bind, ret.
  destruct (for_each _ request env) as [[[]|e] env'];
    [|destruct e]; by intros [= <-].
Qed.

Lemma for_each_put_subscribed ran request : forall env env1,
  for_each (fun resource_arn => put_item (key_item ran resource_arn))
    request env = (Ret tt, env1) ->
  (forall arn, arn ∈ request -> subscribed ran arn (table env1)) /\
  (forall r a, subscribed r a (table env) -> subscribed r a (table env1)).
Proof.
  induction request as [|x request IH]; intros env env1; simpl.
  - intros [= <-]. split; [|done]. intros arn Harn. by inv Harn.
  - unfold bind at 1.
    destruct (put_item (key_item ran x) env) as [[[]|e] env'] eqn:Ep;
      [|done].
    intros Hrest. apply IH in Hrest as [Hreq Hkeep].
    apply write_request_returns in Ep as (it & Hit & Ht & _).
    rewrite of_dict_key_item in Hit. injection Hit as <-.
    assert (forall r a, subscribed r a (table env) ->
                        subscribed r a (table env')) as Hstep.
    { intros r a Hs. rewrite Ht. by apply subscribed_upsert. }
    split; [|by auto].
    intros arn [->|Harn]%elem_of_cons; [|by auto].
    apply Hkeep. rewrite Ht. eexists. split; [apply elem_of_upsert|done].
Qed.

Lemma for_each_delete_unsubscribed ran request : forall env env1,
  for_each (fun resource_arn => delete_item (key_item ran resource_arn))
    request env = (Ret tt, env1) ->
  (forall arn, arn ∈ request -> ~ subscribed ran arn (table env1)) /\
  (forall r a, ~ subscribed r a (table env) ->
               ~ subscribed r a (table env1)).
Proof.
  induction request as [|x request IH]; intros env env1; simpl.
  - intros [= <-]. split; [|done]. intros arn Harn. by inv Harn.
  - unfold bind at 1.
    destruct (delete_item (key_item ran x) env) as [[[]|e] env'] eqn:Ep;
      [|done].
    intros Hrest. apply IH in Hrest as [Hreq Hkeep].
    apply write_request_returns in Ep as (it & Hit & Ht & _).
    rewrite of_dict_key_item in Hit. injection Hit as <-.
    assert (forall r a, ~ subscribed r a (table env) ->
                        ~ subscribed r a (table env')) as Hstep.
    { intros r a Hs. rewrite Ht. by apply not_subscribed_remove_key_more. }
    split; [|by auto].
    intros arn [->|Harn]%elem_of_cons; [|by auto].
    apply Hkeep. rewrite Ht.
    apply (not_subscribed_remove_key (mkItem ran x ∅)).
Qed.

(** C1.  Once [subscribe_resource_to_alarm] has returned [True] for a
    request that names a resource, a lookup of the same alarm and region
    that meets no store error returns a list that holds the resource; and
    once [unsubscribe_resource_to_alarm] has returned [True] for it, every
    lookup returns a list that does not hold it. *)
Theorem subscribe_lookup_unsubscribe
    (request : list string) (alarm_name region resource_arn : string) :
  resource_arn ∈ request ->
  (forall env env1,
     subscribe_resource_to_alarm unquote request alarm_name region env
       = (Ret true, env1) ->
     Fault ∉ script env1 ->
     exists found env2,
       subscribers_to_alarm unquote alarm_name region env1
         = (Ret found, env2) /\
       resource_arn ∈ found) /\
  (forall env env1,
     unsubscribe_resource_to_alarm unquote request alarm_name region env
       = (Ret true, env1) ->
     exists found env2,
       subscribers_to_alarm unquote alarm_name region env1
         = (Ret found, env2) /\
       resource_arn ∉ found).
Proof.
  intros Hreq. split; intros env env1 Hop.
  - intros Hs.
    apply subscribe_returns, for_each_put_subscribed in Hop as [Hin _].
    destruct (subscribers_to_alarm_run unquote alarm_name region env1)
      as (s' & _ & ->).
    eexists _, _. split; [done|].
    apply elem_of_sorted, elem_of_list_to_set.
    apply subscribers_read_complete; auto.
  - apply unsubscribe_returns, for_each_delete_unsubscribed in Hop
      as [Hout _].
    destruct (subscribers_to_alarm_run unquote alarm_name region env1)
      as (s' & _ & ->).
    eexists _, _. split; [done|].
    intros Hin%elem_of_sorted%elem_of_list_to_set.
    apply subscribers_read_sound in Hin. by apply (Hout resource_arn).
Qed.

End Registry.

(** ** Splitting a RegionAlarmName *)

Lemma cut_none s : Str.cut s = None <-> Str.has_colon s = false.
Proof.
  induction s as [|c s IH]; simpl; [done|].
  destruct (Str.is_colon c); simpl; [done|].
  destruct (Str.cut s) as [[a b]|]; [|tauto].
  split; [done|]. intros H. by apply IH in H.
Qed.

Lemma cut_some s region name :
  Str.cut s = Some (region, name) ->
  s = Str.format_colon region name /\ Str.has_colon region = false.
Proof.
  revert region. induction s as [|c s IH]; intros region; simpl; [done|].
  destruct (Str.is_colon c) eqn:Ec.
  - intros [= <- <-]. split; [|done]. unfold Str.format_colon. simpl.
    unfold Str.is_colon in Ec. apply Ascii.eqb_eq in Ec. by subst c.
  - destruct (Str.cut s) as [[a b]|]; [|done]. intros [= <- <-].
    destruct (IH a eq_refl) as [-> Ha]. split; [done|].
    simpl. by rewrite Ec.
Qed.

Lemma has_colon_cut s :
  Str.has_colon s = true -> exists region name, Str.cut s = Some (region, name).
Proof.
  intros H. destruct (Str.cut s) as [[a b]|] eqn:E; [by eauto|].
  apply cut_none in E. congruence.
Qed.

(** ** The loops that key their entries by RegionAlarmName *)

Section Keyed.
Variable entry : string -> string -> Dict -> Dict.

Lemma keyed_item_colon acc it :
  Str.has_colon (key_RegionAlarmName it) = true ->
  keyed_item entry acc (to_dict it) = Ret (store_entry entry acc it).
Proof.
  intros (region & name & Hc)%has_colon_cut.
  unfold keyed_item, store_entry, entry_of, Str.split1.
  by rewrite to_dict_RegionAlarmName, Hc.
Qed.

Lemma keyed_item_no_colon acc it :
  Str.has_colon (key_RegionAlarmName it) = false ->
  keyed_item entry acc (to_dict it) = Raise IndexError.
Proof.
  intros Hc%cut_none. unfold keyed_item, Str.split1.
  by rewrite to_dict_RegionAlarmName, Hc.
Qed.

Lemma keyed_loop_colon (l : list Item) : forall acc,
  Forall (fun it => Str.has_colon (key_RegionAlarmName it) = true) l ->
  for_items (keyed_item entry) acc (to_dict <$> l) =
  (foldl (store_entry entry) acc l, None).
Proof.
  induction l as [|it l IH]; intros acc Hl; simpl; [done|].
  apply Forall_cons in Hl as [Hit Hl].
  rewrite keyed_item_colon by done. by apply IH.
Qed.

Lemma keyed_loop_no_colon (l : list Item) : forall acc,
  Exists (fun it => Str.has_colon (key_RegionAlarmName it) = false) l ->
  (for_items (keyed_item entry) acc (to_dict <$> l)).2 = Some IndexError.
Proof.
  induction l as [|it l IH]; intros acc Hl; simpl; [by inv Hl|].
  destruct (Str.has_colon (key_RegionAlarmName it)) eqn:Hc.
  - rewrite keyed_item_colon by done. apply IH.
    inv Hl; [congruence|done].
  - by rewrite keyed_item_no_colon.
Qed.

(** Last write wins. *)
Lemma lookup_foldl_store (l : list Item) : forall acc k,
  foldl (store_entry entry) acc l !! k =
  match last_named k l with
  | Some it => Some (entry_of entry it)
  | None => acc !! k
  end.
Proof.
  unfold last_named.
  induction l as [|it l IH] using rev_ind; intros acc k; [done|].
  rewrite foldl_snoc, filter_app. unfold store_entry at 1.
  destruct (decide (key_RegionAlarmName it = k)) as [<-|Hne].
  - rewrite lookup_insert_eq, filter_cons_True, filter_nil by done.
    by rewrite last_snoc.
  - rewrite lookup_insert_ne, filter_cons_False, filter_nil by done.
    rewrite app_nil_r. apply IH.
Qed.

Lemma dom_foldl_store (l : list Item) : forall acc,
  dom (foldl (store_entry entry) acc l) =
  list_to_set (key_RegionAlarmName <$> l) ∪ dom acc.
Proof.
  induction l as [|it l IH]; intros acc; simpl; [set_solver|].
  rewrite IH. unfold store_entry. rewrite dom_insert_L. set_solver.
Qed.

End Keyed.

Lemma last_named_elem k l it :
  last_named k l = Some it -> it ∈ l /\ key_RegionAlarmName it = k.
Proof.
  unfold last_named. intros H.
  assert (it ∈ filter (fun it => key_RegionAlarmName it = k) l) as Hin.
  { apply last_Some in H as [l' ->]. set_solver. }
  by apply list_elem_of_filter in Hin as [? ?].
Qed.

Lemma last_named_is_Some k l :
  k ∈ key_RegionAlarmName <$> l -> is_Some (last_named k l).
Proof.
  intros (it & -> & Hit)%list_elem_of_fmap. unfold last_named.
  apply last_is_Some. intros Hnil.
  assert (it ∈ filter
            (fun x => key_RegionAlarmName x = key_RegionAlarmName it) l)
    as Hin by (by apply list_elem_of_filter).
  rewrite Hnil in Hin. by inv Hin.
Qed.

(** [values_by_key] walks the sorted keys and reads each one's value. *)
Lemma values_by_key_Forall2 {V} (m : gmap string V) :
  Forall2 (fun k v => m !! k = Some v) (sorted (dom m)) (values_by_key m).
Proof.
  unfold values_by_key.
  assert (forall k, k ∈ sorted (dom m) -> is_Some (m !! k)) as Hdom.
  { intros k Hk%elem_of_sorted. by apply elem_of_dom. }
  induction (sorted (dom m)) as [|k l IH]; simpl; [constructor|].
  destruct (Hdom k) as [v Hv]; [by left|].
  rewrite Hv. simpl. constructor; [done|].
  apply IH. intros k' Hk'. apply Hdom. by right.
Qed.

Lemma values_by_key_keys {V} (f : V -> string) (m : gmap string V) :
  (forall k v, m !! k = Some v -> f v = k) ->
  f <$> values_by_key m = sorted (dom m).
Proof.
  intros Hf. pose proof (values_by_key_Forall2 m) as H.
  induction H as [|k v ks vs Hkv _ IH]; csimpl; [done|].
  by rewrite (Hf k v Hkv), IH.
Qed.

(** ** Listing alarms: [alarms_for_subscriber] and [all_subscribed_alarms] *)

Section Listing.
Variable unquote : string -> string.

#[local] Abbreviation with_colon :=
  (fun it : Item => Str.has_colon (key_RegionAlarmName it) = true).

(** A keyed loop over a paginated read either returns the entries of the
    items read, by sorted key, or stops on an item without colon. *)
Lemma keyed_run entry (source : list Item) (s : list Decision) :
  after_try (paginate (keyed_item entry) (to_dict <$> source) ∅ s).1
            values_by_key =
  if decide (Forall with_colon (delivered source s).1)
  then Ret (values_by_key
              (foldl (store_entry entry) ∅ (delivered source s).1))
  else Raise IndexError.
Proof.
  rewrite paginate_conclude. unfold conclude.
  rewrite delivered_fmap. simpl.
  destruct (decide (Forall with_colon (delivered source s).1))
    as [Hall|Hex].
  - rewrite keyed_loop_colon by done.
    by destruct (delivered source s).2.
  - apply not_Forall_Exists in Hex; [|apply _].
    assert (Exists (fun it =>
              Str.has_colon (key_RegionAlarmName it) = false)
              (delivered source s).1) as Hex'.
    { eapply Exists_impl; [exact Hex|]. simpl. intros it Hit.
      by destruct (Str.has_colon (key_RegionAlarmName it)). }
    pose proof (keyed_loop_no_colon entry _ ∅ Hex') as He.
    destruct (for_items _ _ _) as [acc' [e|]]; simpl in He; [|done].
    by injection He as ->.
Qed.

Lemma alarms_for_subscriber_run resource_arn env :
  (alarms_for_subscriber unquote resource_arn env).1 =
  if decide (Forall with_colon (alarms_read unquote resource_arn env))
  then Ret (values_by_key
              (foldl (store_entry subscriber_entry) ∅
                     (alarms_read unquote resource_arn env)))
  else Raise IndexError.
Proof.
  unfold alarms_for_subscriber, run_pages, alarms_read, query_source.
  rewrite <- keyed_run.
  by destruct (paginate _ _ _ _) as [r s'].
Qed.

Lemma all_subscribed_alarms_run env :
  (all_subscribed_alarms env).1 =
  if decide (Forall with_colon (scan_read env))
  then Ret (values_by_key
              (foldl (store_entry alarm_entry) ∅ (scan_read env)))
  else Raise IndexError.
Proof.
  unfold all_subscribed_alarms, run_pages, scan_read, scan_source.
  rewrite <- keyed_run.
  by destruct (paginate _ _ _ _) as [r s'].
Qed.

Lemma alarms_read_stored resource_arn env it :
  it ∈ alarms_read unquote resource_arn env ->
  it ∈ table env /\ key_ResourceArn it = unquote resource_arn.
Proof.
  unfold alarms_read. intros Hit.
  match type of Hit with
  | _ ∈ (delivered ?src ?s).1 =>
      destruct (delivered_prefix s src) as [k Hk];
      assert (it ∈ src) as Hin by (rewrite Hk; set_solver)
  end.
  apply list_elem_of_filter in Hin as [Hi Hin]. split; [done|].
  simpl in Hi. by apply bool_decide_eq_true in Hi.
Qed.

Lemma alarms_read_all resource_arn env it :
  Fault ∉ script env ->
  it ∈ table env -> key_ResourceArn it = unquote resource_arn ->
  it ∈ alarms_read unquote resource_arn env.
Proof.
  intros Hs Hit Ha. unfold alarms_read.
  rewrite delivered_no_fault by done. simpl.
  apply list_elem_of_filter. split; [|done].
  simpl. by apply bool_decide_eq_true.
Qed.

Lemma scan_read_stored env it : it ∈ scan_read env -> it ∈ table env.
Proof.
  unfold scan_read. intros Hit.
  destruct (delivered_prefix (script env) (table env)) as [k Hk].
  rewrite Hk. set_solver.
Qed.

Lemma scan_read_all env : Fault ∉ script env -> scan_read env = table env.
Proof. intros Hs. unfold scan_read. by rewrite delivered_no_fault. Qed.

Lemma subscriber_entry_Region region name item :
  subscriber_entry region name item !! "Region" = Some (AttrS region).
Proof.
  unfold subscriber_entry.
  by rewrite !lookup_delete_ne, lookup_insert_ne, lookup_insert_eq by done.
Qed.

Lemma subscriber_entry_AlarmName region name item :
  subscriber_entry region name item !! "AlarmName" = Some (AttrS name).
Proof.
  unfold subscriber_entry.
  by rewrite !lookup_delete_ne, lookup_insert_eq by done.
Qed.

(** The entries keep their key in Region and AlarmName. *)
Lemma subscriber_entry_key it :
  with_colon it ->
  alarm_key (entry_of subscriber_entry it) = key_RegionAlarmName it.
Proof.
  intros (region & name & Hc)%has_colon_cut.
  unfold entry_of, alarm_key. rewrite Hc.
  rewrite subscriber_entry_Region, subscriber_entry_AlarmName.
  by apply cut_some in Hc as [-> _].
Qed.

Lemma alarm_entry_key it :
  with_colon it ->
  alarm_key (entry_of alarm_entry it) = key_RegionAlarmName it.
Proof.
  intros (region & name & Hc)%has_colon_cut.
  unfold entry_of, alarm_key, alarm_entry. rewrite Hc. simpl.
  by apply cut_some in Hc as [-> _].
Qed.

Lemma keyed_values_sorted entry (l : list Item) :
  (forall it, with_colon it ->
              alarm_key (entry_of entry it) = key_RegionAlarmName it) ->
  Forall with_colon l ->
  StronglySorted Str.lt
    (alarm_key <$> values_by_key (foldl (store_entry entry) ∅ l)).
Proof.
  intros Hkey Hl. rewrite values_by_key_keys; [apply sorted_strict|].
  intros k v. rewrite lookup_foldl_store.
  destruct (last_named k l) as [it|] eqn:E; [|by rewrite lookup_empty].
  intros [= <-]. apply last_named_elem in E as [Hit <-].
  apply Hkey. by apply (proj1 (Forall_forall _ _) Hl).
Qed.

Lemma subscriber_entry_is_view it :
  with_colon it -> is_view it (entry_of subscriber_entry it).
Proof.
  intros (region & name & Hc)%has_colon_cut.
  unfold entry_of, is_view. rewrite Hc.
  split; [|unfold subscriber_entry; split; [|split; [|split]]].
  - exists region, name. destruct (cut_some _ _ _ Hc) as [Hf Hr].
    split; [done|]. split; [done|]. split; [done|]. split.
    + apply subscriber_entry_Region.
    + apply subscriber_entry_AlarmName.
  - by rewrite lookup_delete_ne, lookup_delete_ne, lookup_delete_eq
      by done.
  - by rewrite lookup_delete_ne, lookup_delete_eq by done.
  - by rewrite lookup_delete_eq.
  - intros k Hk.
    rewrite !not_elem_of_cons in Hk.
    destruct Hk as (H1 & H2 & H3 & H4 & H5 & _).
    rewrite !lookup_delete_ne, !lookup_insert_ne by done.
    by apply to_dict_other.
Qed.

End Listing.

Lemma delivered_split {T} (source : list T) s s' :
  split_page s s' -> delivered source s = delivered source s'.
Proof.
  intros [s1 a b s2|s1 a s2|s1 a].
  - apply delivered_split_page.
  - apply delivered_split_last.
  - apply delivered_split_end.
Qed.

Section ListingProperties.
Variable unquote : string -> string.

(** C4.  Whatever the table holds and wherever the pages end,
    [subscribers_to_alarm] returns a list of resource names in strictly
    increasing order, and so does [all_subscribed_alarms] for the keys of
    its entries whenever it returns; splitting one page in two changes the
    result of neither. *)
Theorem sorted_whatever_the_pages :
  (forall alarm_name region env,
     exists found env',
       subscribers_to_alarm unquote alarm_name region env
         = (Ret found, env') /\
       StronglySorted Str.lt found) /\
  (forall env,
     match (all_subscribed_alarms env).1 with
     | Ret found => StronglySorted Str.lt (alarm_key <$> found)
     | Raise e => e = IndexError
     end) /\
  (forall alarm_name region env s s',
     split_page s s' ->
     (subscribers_to_alarm unquote alarm_name region (set_script s env)).1
     = (subscribers_to_alarm unquote alarm_name region
          (set_script s' env)).1) /\
  (forall env s s',
     split_page s s' ->
     (all_subscribed_alarms (set_script s env)).1
     = (all_subscribed_alarms (set_script s' env)).1).
Proof.
  split; [|split; [|split]].
  - intros alarm_name region env.
    destruct (subscribers_to_alarm_run unquote alarm_name region env)
      as (s' & _ & ->).
    eexists _, _. split; [done|]. apply sorted_strict.
  - intros env. rewrite all_subscribed_alarms_run.
    case_decide as Hall; [|done].
    apply keyed_values_sorted; [|done]. apply alarm_entry_key.
  - intros alarm_name region env s s' Hsplit.
    destruct (subscribers_to_alarm_run unquote alarm_name region
                (set_script s env)) as (r1 & _ & ->).
    destruct (subscribers_to_alarm_run unquote alarm_name region
                (set_script s' env)) as (r2 & _ & ->).
    unfold subscribers_read. simpl.
    by rewrite (delivered_split _ s s').
  - intros env s s' Hsplit. rewrite !all_subscribed_alarms_run.
    unfold scan_read. simpl. by rewrite (delivered_split _ s s').
Qed.

(** C5.  [alarms_for_subscriber] reads items of the resource and, unless
    it stops on a RegionAlarmName without colon, returns one view for each
    RegionAlarmName read, in increasing order of RegionAlarmName: the view
    of the last item read with that name, which holds Region and
    AlarmName, the two parts of the name around its first colon, holds no
    ResourceArn, RegionAlarmName or Updated, and is the item otherwise. *)
Theorem alarms_for_subscriber_views (resource_arn : string) (env : Env) :
  let read := alarms_read unquote resource_arn env in
  (forall it, it ∈ read ->
     it ∈ table env /\ key_ResourceArn it = unquote resource_arn) /\
  (Fault ∉ script env ->
   forall it, it ∈ table env ->
     key_ResourceArn it = unquote resource_arn -> it ∈ read) /\
  match (alarms_for_subscriber unquote resource_arn env).1 with
  | Ret views =>
      Forall2
        (fun ran view =>
           exists it, last_named ran read = Some it /\ is_view it view)
        (sorted (list_to_set (key_RegionAlarmName <$> read))) views /\
      StronglySorted Str.lt (alarm_key <$> views)
  | Raise e => e = IndexError
  end.
Proof.
  intros read. split; [|split].
  - intros it. apply alarms_read_stored.
  - intros Hs it. by apply alarms_read_all.
  - rewrite alarms_for_subscriber_run. fold read.
    case_decide as Hall; [|done]. split.
    + pose proof (values_by_key_Forall2
                    (foldl (store_entry subscriber_entry) ∅ read)) as H.
      rewrite dom_foldl_store, dom_empty_L, (right_id_L ∅ (∪)) in H.
      eapply Forall2_impl; [exact H|]. simpl. intros ran view.
      rewrite lookup_foldl_store.
      destruct (last_named ran read) as [it|] eqn:E;
        [|by rewrite lookup_empty].
      intros [= <-]. exists it. split; [done|].
      apply subscriber_entry_is_view.
      apply last_named_elem in E as [Hit _].
      by apply (proj1 (Forall_forall _ _) Hall).
    + apply keyed_values_sorted; [|done]. apply subscriber_entry_key.
Qed.

(** C10.  Splitting a RegionAlarmName without colon gives one element.
    [alarms_for_subscriber] and [all_subscribed_alarms] return
    when every RegionAlarmName they meet holds a colon; when the store
    answers every request and an item of the resource (for
    [all_subscribed_alarms]: an item of the table) has a RegionAlarmName
    without colon, the call ends with IndexError, which nothing
    catches. *)
Theorem colon_needed :
  (forall ran, Str.has_colon ran = false -> Str.split1 ran = [ran]) /\
  (forall resource_arn env,
     ((forall it, it ∈ table env ->
         key_ResourceArn it = unquote resource_arn ->
         Str.has_colon (key_RegionAlarmName it) = true) ->
      exists views,
        (alarms_for_subscriber unquote resource_arn env).1 = Ret views) /\
     (Fault ∉ script env ->
      (exists it, it ∈ table env /\
         key_ResourceArn it = unquote resource_arn /\
         Str.has_colon (key_RegionAlarmName it) = false) ->
      (alarms_for_subscriber unquote resource_arn env).1
        = Raise IndexError)) /\
  (forall env,
     ((forall it, it ∈ table env ->
         Str.has_colon (key_RegionAlarmName it) = true) ->
      exists alarms, (all_subscribed_alarms env).1 = Ret alarms) /\
     (Fault ∉ script env ->
      (exists it, it ∈ table env /\
         Str.has_colon (key_RegionAlarmName it) = false) ->
      (all_subscribed_alarms env).1 = Raise IndexError)).
Proof.
  split; [|split].
  - intros ran Hc%cut_none. unfold Str.split1. by rewrite Hc.
  - intros resource_arn env. rewrite alarms_for_subscriber_run. split.
    + intros Hall. rewrite decide_True; [by eauto|].
      apply Forall_forall. intros it Hit.
      apply alarms_read_stored in Hit as [? ?]. by apply Hall.
    + intros Hs (it & Hit & Ha & Hc). rewrite decide_False; [done|].
      intros Hall.
      pose proof (proj1 (Forall_forall _ _) Hall it
                    (alarms_read_all unquote _ _ _ Hs Hit Ha)) as Hc'.
      simpl in Hc'. congruence.
  - intros env. rewrite all_subscribed_alarms_run. split.
    + intros Hall. rewrite decide_True; [by eauto|].
      apply Forall_forall. intros it Hit%scan_read_stored.
      by apply Hall.
    + intros Hs (it & Hit & Hc). rewrite decide_False; [done|].
      rewrite scan_read_all by done. intros Hall.
      pose proof (proj1 (Forall_forall _ _) Hall it Hit) as Hc'.
      simpl in Hc'. congruence.
Qed.

End ListingProperties.

(** ** Counting subscriptions by state: [subscribed_with_state] *)

Section OrderedDict.
Context {V : Type}.
Implicit Types (d : list (string * V)) (k : string) (v : V).

Lemma od_get_set_eq k v d : od_get k (od_set k v d) = Some v.
Proof.
  induction d as [|[k' v'] d IH]; simpl.
  - by rewrite bool_decide_eq_true_2.
  - case_bool_decide as Hk; simpl.
    + by rewrite bool_decide_eq_true_2.
    + by rewrite bool_decide_eq_false_2.
Qed.

Lemma od_get_set_ne k k' v d :
  k' ≠ k -> od_get k' (od_set k v d) = od_get k' d.
Proof.
  intros Hne. induction d as [|[k0 v0] d IH]; simpl.
  - by rewrite bool_decide_eq_false_2.
  - case_bool_decide as Hk; simpl.
    + subst k0. by rewrite !bool_decide_eq_false_2.
    + by rewrite IH.
Qed.

Lemma od_get_None_keys k d : od_get k d = None <-> k ∉ d.*1.
Proof.
  induction d as [|[k' v'] d IH]; simpl.
  - split; [|done]. intros _ H. by inv H.
  - rewrite not_elem_of_cons. case_bool_decide as Hk.
    + naive_solver.
    + rewrite IH. naive_solver.
Qed.

Lemma od_set_keys k v d :
  (od_set k v d).*1 =
  match od_get k d with Some _ => d.*1 | None => d.*1 ++ [k] end.
Proof.
  induction d as [|[k' v'] d IH]; csimpl; [done|].
  case_bool_decide as Hk; csimpl; [by subst|].
  rewrite IH. by destruct (od_get k d).
Qed.

Lemma od_set_NoDup k v d : NoDup d.*1 -> NoDup (od_set k v d).*1.
Proof.
  intros Hd. rewrite od_set_keys.
  destruct (od_get k d) eqn:E; [done|].
  apply NoDup_app. split; [done|]. split; [|apply NoDup_singleton].
  intros x Hx ->%list_elem_of_singleton. by apply od_get_None_keys in E.
Qed.

Lemma od_get_elem k v d : od_get k d = Some v -> (k, v) ∈ d.
Proof.
  induction d as [|[k' v'] d IH]; simpl; [done|].
  case_bool_decide as Hk.
  - intros [= ->]. subst. by left.
  - intros H. right. by apply IH.
Qed.

Lemma od_elem_get k v d : NoDup d.*1 -> (k, v) ∈ d -> od_get k d = Some v.
Proof.
  induction d as [|[k' v'] d IH]; simpl; intros Hd Hin; [by inv Hin|].
  apply NoDup_cons in Hd as [Hk' Hd].
  apply elem_of_cons in Hin as [[= -> ->]|Hin].
  - by rewrite bool_decide_eq_true_2.
  - rewrite bool_decide_eq_false_2; [by apply IH|].
    intros ->. apply Hk'. apply list_elem_of_fmap. by exists (k, v).
Qed.

End OrderedDict.

Section StateCounts.
Variable unquote : string -> string.

Lemma od_get_entries_of k counts :
  od_get k (entries_of counts) = state_entry k <$> od_get k counts.
Proof.
  induction counts as [|[k' n] counts IH]; simpl; [done|].
  case_bool_decide as Hk; [by subst|done].
Qed.

Lemma od_set_entries_of k n counts :
  od_set k (state_entry k n) (entries_of counts) =
  entries_of (od_set k n counts).
Proof.
  induction counts as [|[k' n'] counts IH]; simpl; [done|].
  case_bool_decide as Hk; [done|]. simpl. by rewrite IH.
Qed.

(** The loop of [subscribed_with_state] never raises: it keeps one
    counter for each resource. *)
Lemma state_loop (l : list Item) : forall counts,
  for_items subscribed_with_state_item (entries_of counts) (to_dict <$> l)
  = (entries_of (foldl bump counts l), None).
Proof.
  induction l as [|it l IH]; intros counts; simpl; [done|].
  unfold subscribed_with_state_item at 1.
  rewrite to_dict_ResourceArn, od_get_entries_of.
  unfold bump at 2.
  destruct (od_get (key_ResourceArn it) counts) as [n|]; simpl.
  - rewrite <- IH. f_equal. by rewrite <- od_set_entries_of.
  - rewrite <- IH. f_equal. by rewrite <- od_set_entries_of.
Qed.

Lemma alarm_count_snoc arn l it :
  alarm_count arn (l ++ [it]) =
  alarm_count arn l + (if decide (key_ResourceArn it = arn) then 1 else 0).
Proof.
  unfold alarm_count. rewrite filter_app, length_app.
  case_decide.
  - rewrite filter_cons_True by done. simpl. lia.
  - rewrite filter_cons_False by done. simpl. lia.
Qed.

Lemma alarm_count_absent arn l :
  arn ∉ key_ResourceArn <$> l -> alarm_count arn l = 0.
Proof.
  unfold alarm_count. induction l as [|it l IH]; csimpl; [done|].
  rewrite not_elem_of_cons. intros [Hne Hl].
  rewrite filter_cons_False by done. by apply IH.
Qed.

(** After the loop each resource met has its counter, and no other name
    has one. *)
Lemma counts_foldl (l : list Item) :
  NoDup (foldl bump [] l).*1 /\
  forall arn,
    od_get arn (foldl bump [] l) =
    if decide (arn ∈ key_ResourceArn <$> l)
    then Some (alarm_count arn l) else None.
Proof.
  induction l as [|it l [IHd IHc]] using rev_ind.
  - split; [constructor|]. intros arn. rewrite decide_False; [done|].
    intros H. by inv H.
  - rewrite foldl_snoc. unfold bump at 1 3. split.
    + destruct (od_get _ _); by apply od_set_NoDup.
    + intros arn. rewrite fmap_app, alarm_count_snoc. simpl.
      destruct (decide (key_ResourceArn it = arn)) as [<-|Hne].
      * rewrite decide_True by set_solver.
        rewrite IHc. case_decide as Hin.
        -- by rewrite od_get_set_eq.
        -- by rewrite od_get_set_eq, alarm_count_absent.
      * rewrite Z.add_0_r.
        assert (forall counts',
                  counts' = od_set (key_ResourceArn it) 1 (foldl bump [] l)
                  \/ (exists n, counts' =
                        od_set (key_ResourceArn it) n (foldl bump [] l)) ->
                  od_get arn counts' = od_get arn (foldl bump [] l)) as Hsame.
        { intros counts' [->|[n ->]]; by rewrite od_get_set_ne. }
        rewrite Hsame by (destruct (od_get (key_ResourceArn it) _); eauto).
        rewrite IHc.
        destruct (decide (arn ∈ key_ResourceArn <$> l)).
        -- by rewrite decide_True by set_solver.
        -- by rewrite decide_False by set_solver.
Qed.

Lemma state_read_stored alarm_state env it :
  it ∈ state_read unquote alarm_state env ->
  it ∈ table env /\
  attributes it !! "StateValue" = Some (AttrS (unquote alarm_state)).
Proof.
  unfold state_read. intros Hit.
  match type of Hit with
  | _ ∈ (delivered ?src ?s).1 =>
      destruct (delivered_prefix s src) as [k Hk];
      assert (it ∈ src) as Hin by (rewrite Hk; set_solver)
  end.
  apply list_elem_of_filter in Hin as [Hi Hin]. split; [done|].
  simpl in Hi. by apply bool_decide_eq_true in Hi.
Qed.

Lemma subscribed_with_state_run alarm_state env :
  exists s',
    subscribed_with_state unquote alarm_state env =
    (Ret (map snd (entries_of
            (foldl bump [] (state_read unquote alarm_state env)))),
     set_script s' env).
Proof.
  unfold subscribed_with_state, run_pages, query_source, state_read.
  match goal with
  | |- context [paginate ?b ?src ?acc ?s] =>
      pose proof (paginate_conclude b s src acc) as Hp;
      destruct (paginate b src acc s) as [r s'] eqn:E
  end.
  simpl in Hp. subst r. exists s'. f_equal.
  unfold conclude. rewrite delivered_fmap. simpl fst. simpl snd.
  change (@nil (string * Dict)) with (entries_of []).
  rewrite state_loop. by destruct (delivered _ _).2.
Qed.

(** C6.  [subscribed_with_state] reads the items in the given state, all
    of them when the store answers every request, and returns exactly one
    entry for each resource that has an item among them, with the number
    of these items as AlarmCount. *)
Theorem subscribed_with_state_counts (alarm_state : string) (env : Env) :
  let read := state_read unquote alarm_state env in
  (forall it, it ∈ read ->
     it ∈ table env /\
     attributes it !! "StateValue" = Some (AttrS (unquote alarm_state))) /\
  (Fault ∉ script env ->
   read = filter (fun it => attributes it !! "StateValue"
                             = Some (AttrS (unquote alarm_state)))
                 (table env)) /\
  exists arns env',
    NoDup arns /\
    (forall arn, arn ∈ arns <-> arn ∈ key_ResourceArn <$> read) /\
    subscribed_with_state unquote alarm_state env =
    (Ret ((fun arn => state_entry arn (alarm_count arn read)) <$> arns),
     env').
Proof.
  intros read. split; [|split].
  - intros it. apply state_read_stored.
  - intros Hs. unfold read, state_read.
    rewrite delivered_no_fault by done. simpl.
    apply list_filter_iff. intros it. simpl.
    by rewrite bool_decide_eq_true.
  - destruct (counts_foldl read) as [Hd Hc].
    destruct (subscribed_with_state_run alarm_state env) as [s' Hrun].
    exists (foldl bump [] read).*1, (set_script s' env).
    split; [done|]. split.
    + intros arn. specialize (Hc arn).
      destruct (decide (arn ∈ key_ResourceArn <$> read)) as [Hin|Hin].
      * split; [done|]. intros _.
        apply od_get_elem in Hc. apply list_elem_of_fmap.
        by eexists (_, _).
      * split; [|done]. intros Hk. by apply od_get_None_keys in Hc.
    + rewrite Hrun. fold read. do 2 f_equal.
      unfold entries_of. rewrite <- !list_fmap_compose.
      apply list_fmap_ext. intros i [arn n] Hi. simpl. f_equal.
      apply list_elem_of_lookup_2 in Hi.
      apply (od_elem_get _ _ _ Hd) in Hi. rewrite Hc in Hi.
      case_decide; congruence.
Qed.

End StateCounts.

(** ** Notifications: [incoming_cloudwatch_alarm] *)

Lemma for_each_ext {T} (f g : T -> M unit) (l : list T) env :
  (forall x env', f x env' = g x env') ->
  for_each f l env = for_each g l env.
Proof.
  intros Hfg. revert env. induction l as [|x l IH]; intros env; [done|].
  simpl. unfold bind. rewrite Hfg.
  destruct (g x env) as [[[]|e] env']; [apply IH|done].
Qed.

(** A loop that meets an exception stops there. *)
Lemma for_each_raises {T} (f : T -> M unit) l1 x l2 env env1 e env2 :
  for_each f l1 env = (Ret tt, env1) ->
  f x env1 = (Raise e, env2) ->
  for_each f (l1 ++ x :: l2) env = (Raise e, env2).
Proof.
  revert env. induction l1 as [|y l1 IH]; intros env; simpl.
  - intros [= <-] Hx. unfold bind. by rewrite Hx.
  - unfold bind.
    destruct (f y env) as [[[]|e'] env'] eqn:Ey; [|done].
    intros H1 Hx. by apply IH.
Qed.

Lemma same_key_new_item p arn updated it :
  same_key (new_item p arn updated) it = true <->
  key_RegionAlarmName it = p_ran p /\ key_ResourceArn it = arn.
Proof. rewrite same_key_true. simpl. naive_solver. Qed.

Lemma upsert_present it t :
  subscribed (key_RegionAlarmName it) (key_ResourceArn it) t ->
  upsert it t = replace_item it t.
Proof.
  intros (x & Hx & Hr & Ha). unfold upsert.
  assert (existsb (same_key it) t = true) as ->; [|done].
  apply existsb_exists. exists x. split; [by apply list_elem_of_In|].
  by apply same_key_true.
Qed.

Lemma subscribed_replace_item it ran arn t :
  subscribed ran arn (replace_item it t) <-> subscribed ran arn t.
Proof.
  unfold subscribed, replace_item. split.
  - intros (x & (old & -> & Hold)%list_elem_of_fmap & Hr & Ha).
    exists old. split; [done|].
    destruct (same_key it old) eqn:Ek; [|done].
    apply same_key_true in Ek as [E1 E2]. split; congruence.
  - intros (x & Hx & Hr & Ha).
    exists (if same_key it x then it else x). split.
    + apply list_elem_of_fmap. by exists x.
    + destruct (same_key it x) eqn:Ek; [|done].
      apply same_key_true in Ek as [E1 E2]. split; congruence.
Qed.

Section Updates.
Variables (p : Parsed) (updated : Z).

(** Putting the new item for each of a list of subscribers, all of them
    in the table, rewrites their items and no other. *)
Lemma foldl_replace_new (subs : list string) : forall t,
  foldl (fun t arn => replace_item (new_item p arn updated) t) t subs =
  (fun it => if decide (key_RegionAlarmName it = p_ran p /\
                        key_ResourceArn it ∈ subs)
             then new_item p (key_ResourceArn it) updated else it) <$> t.
Proof.
  induction subs as [|arn subs IH]; intros t; simpl.
  - rewrite <- (list_fmap_id t) at 1. apply list_fmap_ext.
    intros i it _. rewrite decide_False; [done|].
    intros [_ H]. by inv H.
  - rewrite IH. unfold replace_item. rewrite <- list_fmap_compose.
    apply list_fmap_ext. intros i it _. simpl.
    destruct (same_key (new_item p arn updated) it) eqn:Ek.
    + apply same_key_new_item in Ek as [Hr Ha]. subst arn.
      rewrite (decide_True (P := _ /\ _ ∈ _ :: _)) by set_solver.
      by destruct (decide _).
    + assert (~ (key_RegionAlarmName it = p_ran p /\
                 key_ResourceArn it = arn)) as Hne.
      { intros H. apply (same_key_new_item p arn updated) in H.
        congruence. }
      destruct (decide (key_RegionAlarmName it = p_ran p /\
                        key_ResourceArn it ∈ subs)) as [[Hr Hin]|Hn].
      * by rewrite decide_True by set_solver.
      * rewrite decide_False; [done|].
        intros [Hr [Ha|Hin]%elem_of_cons]; tauto.
Qed.

Lemma foldl_replace_all (subs : list string) t :
  (forall it, it ∈ t -> key_RegionAlarmName it = p_ran p ->
              key_ResourceArn it ∈ subs) ->
  foldl (fun t arn => replace_item (new_item p arn updated) t) t subs =
  update_for p updated <$> t.
Proof.
  intros Hall. rewrite foldl_replace_new.
  apply Forall_fmap_ext, Forall_forall. intros it Hit.
  unfold update_for.
  destruct (decide (key_RegionAlarmName it = p_ran p)) as [Hr|Hr].
  - rewrite decide_True; [done|]. split; [done|]. by apply Hall.
  - rewrite decide_False; [done|]. tauto.
Qed.

Lemma update_for_key it :
  key_RegionAlarmName (update_for p updated it) = key_RegionAlarmName it /\
  key_ResourceArn (update_for p updated it) = key_ResourceArn it.
Proof. unfold update_for. by case_decide. Qed.

End Updates.

Lemma of_dict_new_item p arn updated :
  of_dict (to_dict (new_item p arn updated)) = Some (new_item p arn updated).
Proof.
  unfold of_dict.
  by rewrite to_dict_RegionAlarmName, to_dict_ResourceArn.
Qed.

Lemma no_fault_suffix (s' s : list Decision) :
  s' `suffix_of` s -> Fault ∉ s -> Fault ∉ s'.
Proof. intros [k ->] Hs Hin. apply Hs, elem_of_app. by right. Qed.

Lemma no_fault_head (s : list Decision) :
  Fault ∉ s -> head s ≠ Some Fault.
Proof. destruct s as [|d s]; [done|]. simpl. intros H [= ->]. set_solver. Qed.

Lemma no_fault_tail (s : list Decision) : Fault ∉ s -> Fault ∉ tail s.
Proof. destruct s as [|d s]; [done|]. simpl. set_solver. Qed.

(** A write that the store accepts. *)
Lemma put_item_accepted it env :
  head (script env) ≠ Some Fault ->
  put_item (to_dict it) env =
  (match of_dict (to_dict it) with
   | Some it' =>
       (Ret tt,
        set_table (upsert it' (table env))
          (set_script (tail (script env))
             (log_write (Put (to_dict it)) env)))
   | None =>
       (Raise ClientError,
        set_script (tail (script env)) (log_write (Put (to_dict it)) env))
   end).
Proof.
  intros Hh. unfold put_item, write_request. simpl.
  destruct (head (script env)) as [[|n|]|]; try done;
    by destruct (of_dict (to_dict it)).
Qed.

Section Ingestion.
Variable unquote : string -> string.
Variable json_loads : string -> option Payload.
Variable strptime_timestamp : string -> option Z.

#[local] Abbreviation parse := (parse_record json_loads strptime_timestamp).
#[local] Abbreviation incoming_record' :=
  (incoming_record unquote json_loads strptime_timestamp).
#[local] Abbreviation incoming :=
  (incoming_cloudwatch_alarm unquote json_loads strptime_timestamp).

(** On a record whose parts are all there, the handler looks up the
    subscribers and puts the new item of each. *)
Lemma incoming_record_parsed updated record p env :
  parse record = Some p ->
  incoming_record' updated record env =
  bind (subscribers_to_alarm unquote (p_name p) (p_region p))
       (fun subscribers =>
          for_each (fun arn => put_item (to_dict (new_item p arn updated)))
                   subscribers) env.
Proof.
  unfold parse_record, incoming_record. intros Hp.
  destruct (Str.split (EventSubscriptionArn record) !! 3%nat)
    as [region|]; [|done]. simpl in Hp.
  destruct (json_loads (Sns_Message record)) as [alarm|]; [|done].
  simpl in Hp.
  destruct (msg_AlarmName alarm) as [name|] eqn:E1; [|done]. simpl in Hp.
  destruct (msg_NewStateValue alarm) as [state|] eqn:E2; [|done].
  simpl in Hp.
  destruct (msg_Trigger_Namespace alarm) as [namespace|] eqn:E3; [|done].
  simpl in Hp.
  destruct (msg_StateChangeTime alarm) as [changed|] eqn:E4; [|done].
  simpl in Hp.
  destruct (strptime_timestamp changed) as [ts|] eqn:E5; [|done].
  injection Hp as <-. simpl.
  unfold bind at 1 2 3. unfold ret. rewrite E1. simpl. unfold bind at 1 3.
  destruct (subscribers_to_alarm unquote name region env)
    as [[subs|e] env0]; [|done].
  apply for_each_ext. intros arn env'.
  unfold alarm_item. rewrite E2, E3, E4. simpl.
  unfold bind, ret. simpl. rewrite E5. done.
Qed.

(** With the store answering every request, the puts for subscribers
    that the table holds all succeed. *)
Lemma for_each_put_present p updated (subs : list string) : forall env,
  Fault ∉ script env ->
  (forall arn, arn ∈ subs -> subscribed (p_ran p) arn (table env)) ->
  exists env',
    for_each (fun arn => put_item (to_dict (new_item p arn updated)))
             subs env = (Ret tt, env') /\
    table env' =
      foldl (fun t arn => replace_item (new_item p arn updated) t)
            (table env) subs /\
    (Fault ∉ script env') /\ clock env' = clock env.
Proof.
  induction subs as [|arn subs IH]; intros env Hs Hin; simpl.
  - by exists env.
  - unfold bind.
    rewrite put_item_accepted, of_dict_new_item by by apply no_fault_head.
    match goal with
    | |- context [for_each _ subs ?e] => destruct (IH e) as (env' & He & Ht & Hs' & Hc)
    end.
    + simpl. by apply no_fault_tail.
    + intros a Ha. simpl. rewrite upsert_present.
      * apply subscribed_replace_item. apply Hin. by right.
      * simpl. apply Hin. by left.
    + exists env'. split; [done|]. split; [|done].
      rewrite Ht. simpl. rewrite upsert_present; [done|].
      simpl. apply Hin. by left.
Qed.

(** One record, applied without fault. *)
Lemma incoming_record_no_fault updated record p env :
  parse record = Some p -> plain unquote p ->
  Fault ∉ script env ->
  exists env',
    incoming_record' updated record env = (Ret tt, env') /\
    table env' = update_for p updated <$> table env /\
    (Fault ∉ script env') /\ clock env' = clock env.
Proof.
  intros Hp [Hregion Hname] Hs.
  rewrite (incoming_record_parsed _ _ p) by done. unfold bind.
  destruct (subscribers_to_alarm_run unquote (p_name p) (p_region p) env)
    as (s' & Hs' & ->).
  assert (forall arn,
            arn ∈ sorted (list_to_set (key_ResourceArn <$>
                    subscribers_read unquote (p_name p) (p_region p) env))
            <-> subscribed (p_ran p) arn (table env)) as Hsubs.
  { intros arn. rewrite elem_of_sorted, elem_of_list_to_set.
    unfold p_ran. rewrite <- Hregion, <- Hname at 2. split.
    - apply subscribers_read_sound.
    - by apply subscribers_read_complete. }
  destruct (for_each_put_present p updated
              (sorted (list_to_set (key_ResourceArn <$>
                 subscribers_read unquote (p_name p) (p_region p) env)))
              (set_script s' env))
    as (env' & He & Ht & Hs'' & Hc).
  { simpl. by apply (no_fault_suffix s' (script env)). }
  { intros arn. apply Hsubs. }
  exists env'. split; [done|]. split; [|done].
  rewrite Ht. simpl. apply foldl_replace_all.
  intros it Hit Hr. apply Hsubs. by exists it.
Qed.

End Ingestion.

Section UpdateAll.
Variables (ps : list Parsed) (updated : Z).

Lemma update_all_snoc p it :
  update_all (ps ++ [p]) updated it =
  update_for p updated (update_all ps updated it).
Proof. unfold update_all. by rewrite foldl_snoc. Qed.

End UpdateAll.

Lemma update_all_key ps updated it :
  key_RegionAlarmName (update_all ps updated it) = key_RegionAlarmName it /\
  key_ResourceArn (update_all ps updated it) = key_ResourceArn it.
Proof.
  induction ps as [|p ps IH] using rev_ind; [done|].
  rewrite update_all_snoc.
  destruct (update_for_key p updated (update_all ps updated it)) as [-> ->].
  done.
Qed.

(** The last record of the batch that names the item's alarm decides. *)
Lemma update_all_last ps updated it :
  update_all ps updated it =
  match last (filter (fun p => key_RegionAlarmName it = p_ran p) ps) with
  | Some p => new_item p (key_ResourceArn it) updated
  | None => it
  end.
Proof.
  induction ps as [|p ps IH] using rev_ind; [done|].
  rewrite update_all_snoc, filter_app. unfold update_for.
  destruct (update_all_key ps updated it) as [-> ->].
  destruct (decide (key_RegionAlarmName it = p_ran p)) as [Hr|Hr].
  - rewrite filter_cons_True, filter_nil by done. by rewrite last_snoc.
  - rewrite filter_cons_False, filter_nil by done. by rewrite app_nil_r.
Qed.



Section Batches.
Variable unquote : string -> string.
Variable json_loads : string -> option Payload.
Variable strptime_timestamp : string -> option Z.

#[local] Abbreviation parse := (parse_record json_loads strptime_timestamp).
#[local] Abbreviation incoming_record' :=
  (incoming_record unquote json_loads strptime_timestamp).
#[local] Abbreviation incoming :=
  (incoming_cloudwatch_alarm unquote json_loads strptime_timestamp).

Lemma for_each_records_no_fault updated records ps : forall env,
  Forall2 (fun r p => parse r = Some p /\ plain unquote p) records ps ->
  Fault ∉ script env ->
  exists env',
    for_each (incoming_record' updated) records env = (Ret tt, env') /\
    table env' = update_all ps updated <$> table env /\
    (Fault ∉ script env') /\ clock env' = clock env.
Proof.
  intros env H. revert env.
  induction H as [|r p records ps [Hp Hplain] _ IH]; intros env Hs.
  - exists env. split; [done|]. split; [|done].
    by rewrite list_fmap_id.
  - destruct (incoming_record_no_fault unquote json_loads
                strptime_timestamp updated r p env Hp Hplain Hs)
      as (env1 & He1 & Ht1 & Hs1 & Hc1).
    destruct (IH env1 Hs1) as (env' & He & Ht & Hs' & Hc).
    exists env'. simpl. unfold bind. rewrite He1.
    split; [done|]. split; [|split; [done|congruence]].
    rewrite Ht, Ht1, <- list_fmap_compose. done.
Qed.


(** A batch, applied without fault. *)
Lemma incoming_no_fault event ps env :
  Forall2 (fun r p => parse r = Some p /\ plain unquote p) event ps ->
  Fault ∉ script env ->
  exists env',
    incoming event env = (Ret true, env') /\
    table env' = update_all ps (clock env) <$> table env.
Proof.
  intros Hps Hs.
  destruct (for_each_records_no_fault (clock env) event ps env Hps Hs)
    as (env' & He & Ht & _).
  exists env'. split; [|done].
  unfold incoming_cloudwatch_alarm, bind, try_except. by rewrite He.
Qed.


End Batches.

(** ** What store errors do to the handler *)

Lemma write_request_outcome w d change env :
  (write_request w d change env).1 = Ret tt \/
  (write_request w d change env).1 = Raise ClientError.
Proof.
  unfold write_request. simpl.
  destruct (head (script env)) as [[|n|]|]; destruct (of_dict d); auto.
Qed.

Lemma for_each_outcome {T} (f : T -> M unit) (l : list T) :
  (forall x env, (f x env).1 = Ret tt \/ (f x env).1 = Raise ClientError) ->
  forall env,
    (for_each f l env).1 = Ret tt \/ (for_each f l env).1 = Raise ClientError.
Proof.
  intros Hf. induction l as [|x l IH]; intros env; simpl; [by left|].
  unfold bind. pose proof (Hf x env) as H.
  destruct (f x env) as [[[]|e] env']; simpl in H.
  - apply IH.
  - right. destruct H as [H|H]; [done|]. by injection H as ->.
Qed.

Lemma sorted_empty (xs : gset string) :
  (forall x, x ∉ xs) -> sorted xs = [].
Proof.
  intros Hxs. destruct (sorted xs) as [|x l] eqn:E; [done|].
  exfalso. apply (Hxs x), elem_of_sorted. rewrite E. by left.
Qed.

Section StoreErrors.
Variable unquote : string -> string.
Variable json_loads : string -> option Payload.
Variable strptime_timestamp : string -> option Z.

#[local] Abbreviation parse := (parse_record json_loads strptime_timestamp).
#[local] Abbreviation incoming_record' :=
  (incoming_record unquote json_loads strptime_timestamp).
#[local] Abbreviation incoming :=
  (incoming_cloudwatch_alarm unquote json_loads strptime_timestamp).

(** A record that meets the contract ends normally or on a store error. *)
Lemma incoming_record_outcome updated record env :
  parsed json_loads strptime_timestamp record ->
  (incoming_record' updated record env).1 = Ret tt \/
  (incoming_record' updated record env).1 = Raise ClientError.
Proof.
  intros [p Hp]. rewrite (incoming_record_parsed _ _ _ _ _ p) by done.
  unfold bind.
  destruct (subscribers_to_alarm_run unquote (p_name p) (p_region p) env)
    as (s' & _ & ->).
  apply for_each_outcome. intros arn env'. apply write_request_outcome.
Qed.

Lemma incoming_returns_True event env :
  Forall (parsed json_loads strptime_timestamp) event ->
  exists env', incoming event env = (Ret true, env').
Proof.
  intros Hev.
  assert (forall updated env0,
            (for_each (incoming_record' updated) event env0).1 = Ret tt \/
            (for_each (incoming_record' updated) event env0).1
              = Raise ClientError) as Hout.
  { intros updated. induction Hev as [|r event Hr _ IH]; intros env0;
      simpl; [by left|].
    unfold bind.
    pose proof (incoming_record_outcome updated r env0 Hr) as H.
    destruct (incoming_record' updated r env0) as [[[]|e] env1];
      simpl in H.
    - apply IH.
    - right. destruct H as [H|H]; [done|]. by injection H as ->. }
  unfold incoming_cloudwatch_alarm, bind, try_except, ret.
  pose proof (Hout (clock env) env) as H.
  destruct (for_each _ event env) as [[[]|e] env1]; simpl in H;
    [by eauto|].
  destruct H as [H|H]; [done|]. injection H as ->. by eauto.
Qed.




End StoreErrors.

(** ** Listing the alarms of a region, and what every operation does with
    a store error *)

Lemma delivered_until_fault {T} (ns : list nat) (s : list Decision) :
  forall source : list T,
    delivered source ((Limit <$> ns) ++ Fault :: s) =
    (take (sum_list ns) source, true).
Proof.
  induction ns as [|n ns IH]; intros source; csimpl.
  - by rewrite take_0.
  - rewrite IH. by rewrite take_take_drop.
Qed.

Section ListAlarms.
Variable unquote : string -> string.
Variable epoch_seconds : Z -> Z.

#[local] Abbreviation reshaped :=
  (fun (alarm : RawAlarm) (filtered : Dict) =>
     filtered_alarm epoch_seconds alarm = Ret filtered).
#[local] Abbreviation incomplete :=
  (fun alarm : RawAlarm => filtered_alarm epoch_seconds alarm = Raise KeyError).

Lemma filtered_alarm_outcome alarm :
  (exists filtered, reshaped alarm filtered) \/ incomplete alarm.
Proof.
  unfold filtered_alarm.
  destruct (AlarmArn alarm), (AlarmName alarm), (MetricName alarm),
    (Namespace alarm), (StateValue alarm), (StateUpdatedTimestamp alarm);
    by eauto.
Qed.

Lemma alarms_loop_complete (l : list RawAlarm) (ds : list Dict) :
  Forall2 reshaped l ds ->
  forall acc,
    for_items (get_cloudwatch_alarms_region_item epoch_seconds) acc l
    = (acc ++ ds, None).
Proof.
  induction 1 as [|a d l ds Ha _ IH]; intros acc; simpl.
  - by rewrite app_nil_r.
  - unfold get_cloudwatch_alarms_region_item at 1. rewrite Ha, IH.
    by rewrite <- (assoc_L (++)).
Qed.

Lemma alarms_loop_incomplete (l : list RawAlarm) :
  Exists incomplete l ->
  forall acc,
    (for_items (get_cloudwatch_alarms_region_item epoch_seconds) acc l).2
    = Some KeyError.
Proof.
  induction l as [|a l IH]; intros Hl acc; simpl; [by inv Hl|].
  unfold get_cloudwatch_alarms_region_item at 1.
  destruct (filtered_alarm_outcome a) as [[d Hd]|Ha].
  - rewrite Hd. apply IH. inv Hl; [congruence|done].
  - by rewrite Ha.
Qed.

(** [get_cloudwatch_alarms_region] on the alarms the service delivered:
    their reshaped forms, whether or not a request failed, unless one of
    them lacks a key. *)
Lemma get_cloudwatch_alarms_region_run region env :
  let read :=
    (delivered (default [] (metric_alarms env !! unquote region))
               (script env)).1 in
  (forall filtered,
     Forall2 reshaped read filtered ->
     exists env',
       get_cloudwatch_alarms_region unquote epoch_seconds region env
         = (Ret filtered, env')) /\
  (Exists incomplete read ->
   (get_cloudwatch_alarms_region unquote epoch_seconds region env).1
     = Raise KeyError).
Proof.
  intros read. unfold get_cloudwatch_alarms_region, run_pages.
  match goal with
  | |- context [paginate ?b ?src ?acc ?s] =>
      pose proof (paginate_conclude b s src acc) as Hp;
      destruct (paginate b src acc s) as [r s'] eqn:E
  end.
  simpl in Hp. subst r. unfold conclude. fold read. split.
  - intros filtered Hall. rewrite (alarms_loop_complete _ _ Hall). simpl.
    exists (set_script s' env). by destruct (delivered _ _).2.
  - intros Hex. pose proof (alarms_loop_incomplete _ Hex []) as He.
    destruct (for_items _ _ _) as [acc' [e|]]; simpl in He; [|done].
    by injection He as ->.
Qed.

(** C9, as amended.  When a request of [get_cloudwatch_alarms_region]
    fails, the operation returns the reshaped alarms of the pages it
    received before: the empty list when the first request fails, the
    alarms received so far when a later one does.  (An alarm that lacks a
    key among those received ends the operation with KeyError before the
    failing request is sent.) *)
Theorem alarms_before_the_error (region : string) (env : Env)
    (ns : list nat) (s : list Decision) :
  script env = (Limit <$> ns) ++ Fault :: s ->
  let received :=
    take (sum_list ns) (default [] (metric_alarms env !! unquote region)) in
  (forall alarms,
     Forall2 reshaped received alarms ->
     exists env',
       get_cloudwatch_alarms_region unquote epoch_seconds region env
         = (Ret alarms, env')) /\
  (ns = [] ->
   exists env',
     get_cloudwatch_alarms_region unquote epoch_seconds region env
       = (Ret [], env')) /\
  (Exists incomplete received ->
   (get_cloudwatch_alarms_region unquote epoch_seconds region env).1
     = Raise KeyError).
Proof.
  intros Hs received.
  destruct (get_cloudwatch_alarms_region_run region env) as [Hret Hraise].
  rewrite Hs, delivered_until_fault in Hret, Hraise. simpl in Hret, Hraise.
  split; [exact Hret|]. split; [|exact Hraise].
  intros ->. apply Hret. simpl. rewrite take_0. constructor.
Qed.

End ListAlarms.

(** The query of events by state lets the store's error out. *)
Lemma events_query_raises state env s :
  script env = Fault :: s ->
  get_cloudwatch_events_state state env
    = (Raise ClientError, set_script s env).
Proof.
  intros Hs. unfold get_cloudwatch_events_state. by rewrite Hs.
Qed.

(** ** The properties on examples *)

Section Examples.

#[local] Abbreviation subscribe := (subscribe_resource_to_alarm percent_decode).
#[local] Abbreviation unsubscribe :=
  (unsubscribe_resource_to_alarm percent_decode).
#[local] Abbreviation lookup := (subscribers_to_alarm percent_decode).
#[local] Abbreviation ingest :=
  (incoming_cloudwatch_alarm percent_decode example_json_loads
     example_strptime).

(** C1 on an example: one resource subscribed to HighCPU in an empty
    table, looked up, then unsubscribed. *)
Lemma subscribe_lookup_unsubscribe_example :
  (exists found env2,
     lookup "HighCPU" "us-east-1"
       (subscribe ["r1"] "HighCPU" "us-east-1" (example_env [] [] 0)).2
     = (Ret found, env2) /\ "r1" ∈ found) /\
  (exists found env2,
     lookup "HighCPU" "us-east-1"
       (unsubscribe ["r1"] "HighCPU" "us-east-1"
          (example_env [subscription "us-east-1:HighCPU" "r1"] [Rest; Fault]
             0)).2
     = (Ret found, env2) /\ "r1" ∉ found).
Proof.
  destruct (subscribe_lookup_unsubscribe percent_decode ["r1"] "HighCPU"
              "us-east-1" "r1") as [Hin Hout]; [by left|].
  split.
  - apply (Hin (example_env [] [] 0)); [reflexivity|].
    simpl. apply not_elem_of_nil.
  - apply (Hout (example_env [subscription "us-east-1:HighCPU" "r1"]
                   [Rest; Fault] 0)).
    reflexivity.
Defined.

(** The specification's example of a notification: region us-east-1 from
    the subscription identifier, HighCPU going to ALARM, for a resource
    subscribed to us-east-1:HighCPU. *)
Example ingest_example :
  ingest [example_record "HighCPU" "ALARM"]
    (example_env [subscription "us-east-1:HighCPU" "r1";
                  subscription "us-east-1:LowDisk" "r2"] [] 100)
  = (Ret true,
     mkEnv [notified "us-east-1:HighCPU" "r1" "ALARM" 100;
            subscription "us-east-1:LowDisk" "r2"]
           [] ∅ [] 100
           [Put (to_dict (notified "us-east-1:HighCPU" "r1" "ALARM" 100))]).
Proof. reflexivity. Qed.

(** C2, where the code departs from it: the handler gives the alarm name
    of the message to [subscribers_to_alarm], which takes it for a path
    parameter and decodes it.  For the alarm named Disk%20Full the
    subscribers looked up are those of "Disk Full": the subscriber of
    Disk%20Full is left as it was, and a subscriber of "Disk Full" gets a
    new item under us-east-1:Disk%20Full. *)
Theorem incoming_decodes_alarm_name :
  let env :=
    example_env [subscription "us-east-1:Disk%20Full" "r1"] [] 100 in
  let env' :=
    example_env [subscription "us-east-1:Disk Full" "r2"] [] 100 in
  ingest [example_record "Disk%20Full" "ALARM"] env = (Ret true, env) /\
  table (ingest [example_record "Disk%20Full" "ALARM"] env').2 =
    [subscription "us-east-1:Disk Full" "r2";
     notified "us-east-1:Disk%20Full" "r2" "ALARM" 100].
Proof. split; reflexivity. Qed.

Lemma example_well_formed name state :
  (name, state) ∈ example_alarms ->
  percent_decode name = name ->
  well_formed percent_decode example_json_loads example_strptime
    (example_record name state).
Proof.
  intros Hin Hname.
  exists (mkParsed "us-east-1" name state "AWS/EC2" example_epoch).
  split; [|by split].
  repeat (apply elem_of_cons in Hin as [[= -> ->]|Hin]; [reflexivity|]).
  by apply elem_of_nil in Hin.
Qed.



(** C4 on an example: two subscribers delivered in one page of two or in
    two pages of one. *)
Lemma sorted_whatever_the_pages_example :
  let env :=
    example_env [subscription "us-east-1:HighCPU" "r2";
                 subscription "us-east-1:HighCPU" "r1"] [] 0 in
  (lookup "HighCPU" "us-east-1" (set_script [Limit (1 + 1)] env)).1 =
  (lookup "HighCPU" "us-east-1" (set_script [Limit 1; Limit 1] env)).1.
Proof.
  intros env.
  destruct (sorted_whatever_the_pages percent_decode)
    as (_ & _ & Hsplit & _).
  apply Hsplit. apply (split_inner [] 1 1 []).
Defined.

(** The example of the specification for [alarms_for_subscriber]. *)
Example alarms_for_subscriber_example :
  (alarms_for_subscriber percent_decode "r1"
     (example_env [notified "us-east-1:HighCPU" "r1" "ALARM" 100;
                   subscription "us-east-1:LowDisk" "r2"] [] 0)).1
  = Ret [<["Region" := AttrS "us-east-1"]>
         (<["AlarmName" := AttrS "HighCPU"]>
         (<["StateValue" := AttrS "ALARM"]>
         (<["Namespace" := AttrS "AWS/EC2"]>
         (<["StateUpdated" := AttrN example_epoch]> ∅))))].
Proof. reflexivity. Qed.

(** C5 on an example: with the store answering, the item of the
    resource is read. *)
Lemma alarms_for_subscriber_views_example :
  subscription "us-east-1:HighCPU" "r1" ∈
  alarms_read percent_decode "r1"
    (example_env [subscription "us-east-1:HighCPU" "r1"] [] 0).
Proof.
  destruct (alarms_for_subscriber_views percent_decode "r1"
              (example_env [subscription "us-east-1:HighCPU" "r1"] [] 0))
    as (_ & Hall & _).
  apply Hall; [simpl; apply not_elem_of_nil|by left|reflexivity].
Defined.

(** The example of the specification for [subscribed_with_state]: a
    resource with two subscriptions in state ALARM. *)
Example subscribed_with_state_example :
  (subscribed_with_state percent_decode "ALARM"
     (example_env [notified "us-east-1:HighCPU" "r1" "ALARM" 100;
                   notified "us-east-1:LowDisk" "r1" "ALARM" 100;
                   subscription "us-east-1:Other" "r1"] [Limit 1] 0)).1
  = Ret [state_entry "r1" 2].
Proof. reflexivity. Qed.

(** C6 on an example: with the store answering, the items read are the
    items in the state. *)
Lemma subscribed_with_state_counts_example :
  let env :=
    example_env [notified "us-east-1:HighCPU" "r1" "ALARM" 100;
                 subscription "us-east-1:Other" "r1"] [Limit 1] 0 in
  state_read percent_decode "ALARM" env =
  filter (fun it => attributes it !! "StateValue" = Some (AttrS "ALARM"))
         (table env).
Proof.
  intros env.
  destruct (subscribed_with_state_counts percent_decode "ALARM" env)
    as (_ & Hall & _).
  apply Hall. simpl. intros H. apply elem_of_cons in H as [H|H]; [done|].
  by apply elem_of_nil in H.
Defined.

End Examples.

Section ErrorExamples.

#[local] Abbreviation ingest :=
  (incoming_cloudwatch_alarm percent_decode example_json_loads
     example_strptime).




(** C9 as amended, on an example: one page of one alarm, then a failed
    request. *)
Lemma alarms_before_the_error_example :
  exists env',
    get_cloudwatch_alarms_region percent_decode example_epoch_seconds
      "us-east-1"
      (alarms_env [example_alarm "a"; example_alarm "b"] [Limit 1; Fault])
    = (Ret [example_filtered "a"], env').
Proof.
  destruct (alarms_before_the_error percent_decode example_epoch_seconds
              "us-east-1"
              (alarms_env [example_alarm "a"; example_alarm "b"]
                 [Limit 1; Fault]) [1%nat] [] eq_refl) as [Hrun _].
  apply Hrun. repeat constructor.
Defined.

(** C9 as stated fails: the request for the second page fails, and the
    operation returns the alarm of the first page, not the empty list. *)
Lemma alarms_of_first_page_returned :
  let env :=
    alarms_env [example_alarm "a"; example_alarm "b"] [Limit 1; Fault] in
  (delivered (default [] (metric_alarms env !! "us-east-1"))
             (script env)).2 = true /\
  (get_cloudwatch_alarms_region percent_decode example_epoch_seconds
     "us-east-1" env).1
    = Ret [example_filtered "a"] /\
  (get_cloudwatch_alarms_region percent_decode example_epoch_seconds
     "us-east-1" env).1 ≠ Ret [].
Proof.
  split; [reflexivity|]. split; [reflexivity|].
  vm_compute. discriminate.
Qed.

(** C10 on an example: a scan that meets the RegionAlarmName "nocolon". *)
Lemma colon_needed_example :
  (all_subscribed_alarms
     (example_env [subscription "us-east-1:HighCPU" "r1";
                   subscription "nocolon" "r2"] [] 0)).1
  = Raise IndexError.
Proof.
  destruct (colon_needed percent_decode) as (_ & _ & Hscan).
  destruct (Hscan (example_env [subscription "us-east-1:HighCPU" "r1";
                                subscription "nocolon" "r2"] [] 0))
    as [_ Hraise].
  apply Hraise.
  - simpl. apply not_elem_of_nil.
  - exists (subscription "nocolon" "r2"). split; [|reflexivity].
    right. left.
Defined.

End ErrorExamples.


(** * Further properties *)

(** ** Subscribing and unsubscribing: what the writes do to the table *)

Lemma elem_of_upsert_inv it t x :
  x ∈ upsert it t -> x = it \/ (x ∈ t /\ same_key it x = false).
Proof.
  unfold upsert. destruct (existsb (same_key it) t) eqn:E.
  - intros (old & -> & Hold)%list_elem_of_fmap.
    destruct (same_key it old) eqn:Ek; [by left|by right].
  - intros [Hx| ->%list_elem_of_singleton]%elem_of_app; [|by left].
    right. split; [done|].
    destruct (same_key it x) eqn:Ek; [|done].
    assert (existsb (same_key it) t = true) as E'; [|congruence].
    apply existsb_exists. exists x. split; [by apply list_elem_of_In|done].
Qed.

Lemma same_key_refl it : same_key it it = true.
Proof. by apply same_key_true. Qed.

Lemma filter_upsert (Q : Item -> Prop) `{!forall x, base.Decision (Q x)} it t :
  ~ Q it -> (forall x, Q x -> same_key it x = false) ->
  filter Q (upsert it t) = filter Q t.
Proof.
  intros Hit HQ. unfold upsert. destruct (existsb (same_key it) t).
  - induction t as [|x t IH]; [done|]. csimpl.
    destruct (decide (Q x)) as [Hx|Hx].
    + rewrite (HQ x Hx). by rewrite !filter_cons_True, IH by done.
    + rewrite (filter_cons_False _ x) by done.
      destruct (same_key it x); by rewrite filter_cons_False.
  - rewrite filter_app, filter_cons_False, filter_nil by done.
    by rewrite app_nil_r.
Qed.

Lemma filter_remove_key (Q : Item -> Prop) `{!forall x, base.Decision (Q x)}
    it t :
  (forall x, Q x -> same_key it x = false) ->
  filter Q (remove_key it t) = filter Q t.
Proof.
  intros HQ. unfold remove_key. rewrite list_filter_filter.
  apply list_filter_iff. naive_solver.
Qed.

Lemma not_named_by_same_key ran request arn x :
  arn ∈ request -> ~ named_by ran request x ->
  same_key (mkItem ran arn ∅) x = false.
Proof.
  intros Harn Hx. destruct (same_key _ x) eqn:Ek; [|done].
  apply same_key_true in Ek as [Hr Ha]. simpl in *.
  exfalso. apply Hx. split; congruence.
Qed.

Lemma write_request_done w d change it env :
  head (script env) ≠ Some Fault -> of_dict d = Some it ->
  write_request w d change env =
  (Ret tt,
   set_table (change it (table env))
     (set_script (tail (script env)) (log_write w env))).
Proof.
  intros Hh Hd. unfold write_request. simpl. rewrite Hd.
  by destruct (head (script env)) as [[|n|]|].
Qed.

(** A loop of writes: when no request among the first [length l] of the
    script fails, every write is done. *)
Lemma for_each_writes_done (w : string -> Write) (mk : string -> Dict)
    (item : string -> Item) change (l : list string) : forall env,
  (forall arn, of_dict (mk arn) = Some (item arn)) ->
  Fault ∉ take (length l) (script env) ->
  exists env',
    for_each (fun arn => write_request (w arn) (mk arn) change) l env
      = (Ret tt, env') /\
    table env' = foldl (fun t arn => change (item arn) t) (table env) l /\
    script env' = drop (length l) (script env) /\
    journal env' = journal env ++ (w <$> l) /\
    clock env' = clock env.
Proof.
  intros env Hmk. revert env.
  induction l as [|arn l IH]; intros env Hs; simpl.
  - exists env. by rewrite app_nil_r.
  - assert (head (script env) ≠ Some Fault /\
            Fault ∉ take (length l) (tail (script env))) as [Hh Ht].
    { destruct (script env) as [|d s]; simpl in *; [by rewrite take_nil|].
      apply not_elem_of_cons in Hs as [? ?]. split; [congruence|done]. }
    unfold bind.
    rewrite (write_request_done _ _ _ (item arn)) by done.
    destruct (IH (set_table (change (item arn) (table env))
                    (set_script (tail (script env))
                       (log_write (w arn) env))))
      as (env' & He & Htab & Hscr & Hj & Hc); [done|].
    exists env'. split; [exact He|]. simpl in *.
    rewrite Htab, Hscr, Hj, Hc, <- (assoc_L (++)).
    split; [done|]. split; [|done].
    destruct (script env); simpl; [by rewrite !drop_nil|done].
Qed.

(** A loop of writes whatever the store does: what is outside the keys
    written stays. *)
Lemma for_each_writes_filter (Q : Item -> Prop) `{!forall x, base.Decision (Q x)}
    (w : string -> Write) (mk : string -> Dict) change (l : list string) :
  (forall arn it t, arn ∈ l -> of_dict (mk arn) = Some it ->
                    filter Q (change it t) = filter Q t) ->
  forall env,
    filter Q (table (for_each (fun arn =>
                write_request (w arn) (mk arn) change) l env).2)
    = filter Q (table env).
Proof.
  induction l as [|arn l IH]; intros Hch env; simpl; [done|].
  assert (forall arn' it t, arn' ∈ l -> of_dict (mk arn') = Some it ->
            filter Q (change it t) = filter Q t) as Hch'.
  { intros arn' it t Hin. apply Hch. by right. }
  unfold bind.
  destruct (write_request (w arn) (mk arn) change env) as [[[]|e] env1]
    eqn:E.
  - apply write_request_returns in E as (it & Hit & Ht & _).
    rewrite (IH Hch'). rewrite Ht. apply (Hch arn); [by left|done].
  - apply write_request_raises in E as (_ & Ht & _). simpl. by rewrite Ht.
Qed.

Lemma try_except_table {A} (body : M A) (a : A) env :
  table (try_except body (ret a) env).2 = table (body env).2.
Proof.
  unfold try_except, ret. by destruct (body env) as [[?|[]] ?].
Qed.

Lemma bind_ret_table {A} (body : M unit) (a : A) env :
  table ((body ;;; ret a) env).2 = table (body env).2.
Proof. unfold bind, ret. by destruct (body env) as [[[]|?] ?]. Qed.

Section Writes.
Variable unquote : string -> string.

#[local] Abbreviation ran_of alarm_name region :=
  (Str.format_colon (unquote region) (unquote alarm_name)).

(** X2.  Whatever the store does and whatever they return, subscribing and
    unsubscribing leave every item that the request does not name as it
    was, in the order it was. *)
Theorem writes_keep_other_items (request : list string)
    (alarm_name region : string) (env : Env) :
  let other := fun it =>
    ~ named_by (ran_of alarm_name region) request it in
  filter other
    (table (subscribe_resource_to_alarm unquote request alarm_name region
              env).2)
  = filter other (table env) /\
  filter other
    (table (unsubscribe_resource_to_alarm unquote request alarm_name region
              env).2)
  = filter other (table env).
Proof.
  intros other. split.
  - unfold subscribe_resource_to_alarm.
    rewrite try_except_table, bind_ret_table.
    apply (for_each_writes_filter other). intros arn it t Harn Hit.
    rewrite of_dict_key_item in Hit. injection Hit as <-.
    apply filter_upsert.
    + intros Hn. apply Hn. by split.
    + intros x. by apply not_named_by_same_key.
  - unfold unsubscribe_resource_to_alarm.
    rewrite try_except_table, bind_ret_table.
    apply (for_each_writes_filter other). intros arn it t Harn Hit.
    rewrite of_dict_key_item in Hit. injection Hit as <-.
    apply filter_remove_key. intros x. by apply not_named_by_same_key.
Qed.

End Writes.

Lemma list_filter_True {A} (P : A -> Prop) `{!forall x, base.Decision (P x)}
    (l : list A) :
  (forall x, x ∈ l -> P x) -> filter P l = l.
Proof.
  induction l as [|x l IH]; intros Hl; [done|].
  rewrite filter_cons_True by (apply Hl; by left).
  rewrite IH; [done|]. intros y Hy. apply Hl. by right.
Qed.

Lemma foldl_remove_key ran (request : list string) : forall t,
  foldl (fun t arn => remove_key (mkItem ran arn ∅) t) t request =
  filter (fun it => ~ named_by ran request it) t.
Proof.
  induction request as [|arn request IH]; intros t; simpl.
  - symmetry. apply list_filter_True. unfold named_by.
    intros it _ [_ H]. by apply elem_of_nil in H.
  - rewrite IH. unfold remove_key. rewrite list_filter_filter.
    apply list_filter_iff. intros it. unfold named_by.
    rewrite elem_of_cons. split.
    + intros [Hn Hk] [Hr [Ha|Ha]]; [|by apply Hn].
      rewrite (proj2 (same_key_true (mkItem ran arn ∅) it)) in Hk; [done|].
      simpl. by split.
    + intros Hn. split; [naive_solver|].
      destruct (same_key _ it) eqn:Ek; [|done].
      apply same_key_true in Ek as [Hr Ha]. simpl in *.
      exfalso. apply Hn. split; [done|]. by left.
Qed.

Lemma upsert_fixed it t :
  subscribed (key_RegionAlarmName it) (key_ResourceArn it) t ->
  (forall x, x ∈ t -> same_key it x = true -> x = it) ->
  upsert it t = t.
Proof.
  intros Hin Hsame. rewrite upsert_present by done. unfold replace_item.
  rewrite <- (list_fmap_id t) at 2.
  apply Forall_fmap_ext, Forall_forall. intros x Hx.
  destruct (same_key it x) eqn:Ek; [|done]. symmetry. by apply Hsame.
Qed.

Section WriteEffects.
Variable unquote : string -> string.

#[local] Abbreviation ran_of alarm_name region :=
  (Str.format_colon (unquote region) (unquote alarm_name)).
#[local] Abbreviation subscribe := (subscribe_resource_to_alarm unquote).
#[local] Abbreviation unsubscribe := (unsubscribe_resource_to_alarm unquote).

(** The items named by a successful loop of puts hold the two key
    attributes and nothing else. *)
Lemma for_each_put_bare ran (request : list string) : forall env env1,
  for_each (fun arn => put_item (key_item ran arn)) request env
    = (Ret tt, env1) ->
  forall it, it ∈ table env1 -> named_by ran request it ->
             it = mkItem ran (key_ResourceArn it) ∅.
Proof.
  induction request as [|x request IH]; intros env env1; simpl.
  - intros _ it _ [_ H]. by apply elem_of_nil in H.
  - unfold bind.
    destruct (put_item (key_item ran x) env) as [[[]|e] env'] eqn:Ep;
      [|done].
    intros Hrest it Hit [Hr Ha].
    destruct (decide (key_ResourceArn it ∈ request)) as [Hin|Hout].
    { by apply (IH env' env1 Hrest it Hit). }
    apply elem_of_cons in Ha as [Ha|Ha]; [|done].
    set (Q := fun y : Item =>
                key_RegionAlarmName y = ran /\ key_ResourceArn y = x).
    assert (filter Q (table env1) = filter Q (table env')) as Hsame.
    { pose proof (for_each_writes_filter Q
                    (fun arn => Put (key_item ran arn)) (key_item ran)
                    upsert request) as Hf.
      assert (forall arn it' t, arn ∈ request ->
                of_dict (key_item ran arn) = Some it' ->
                filter Q (upsert it' t) = filter Q t) as Hch.
      { intros arn it' t Harn Hit'.
        rewrite of_dict_key_item in Hit'. injection Hit' as <-.
        assert (arn ≠ x) as Hne by (intros ->; congruence).
        apply filter_upsert.
        - unfold Q. simpl. naive_solver.
        - intros y [Hy1 Hy2]. destruct (same_key _ y) eqn:Ek; [|done].
          apply same_key_true in Ek as [_ Ek]. simpl in Ek. congruence. }
      unfold put_item in Hrest. by rewrite <- (Hf Hch env'), Hrest. }
    assert (it ∈ filter Q (table env')) as Hit'.
    { rewrite <- Hsame. apply list_elem_of_filter. by split. }
    apply list_elem_of_filter in Hit' as [_ Hit'].
    apply write_request_returns in Ep as (it0 & Hit0 & Ht & _).
    rewrite of_dict_key_item in Hit0. injection Hit0 as <-.
    rewrite Ht in Hit'.
    apply elem_of_upsert_inv in Hit' as [->|[_ Hk]]; [by rewrite <- Ha|].
    rewrite (proj2 (same_key_true _ it)) in Hk; [done|]. simpl. by split.
Qed.

(** X1.  Subscribing overwrites the whole item: once
    [subscribe_resource_to_alarm] has returned [True], every item of the
    table that the request names holds its RegionAlarmName and ResourceArn
    and no other attribute, so a state stored by an earlier notification
    is gone. *)
Theorem subscribe_resets_state (request : list string)
    (alarm_name region : string) (env env1 : Env) (it : Item) :
  subscribe request alarm_name region env = (Ret true, env1) ->
  it ∈ table env1 ->
  named_by (ran_of alarm_name region) request it ->
  attributes it = ∅ /\
  to_dict it = key_item (ran_of alarm_name region) (key_ResourceArn it).
Proof.
  intros Hsub%subscribe_returns Hit Hnamed.
  rewrite (for_each_put_bare _ _ _ _ Hsub it Hit Hnamed). done.
Qed.

(** X3.  When the store answers the deletes, unsubscribing returns [True]
    and removes exactly the items that the request names, keeping the
    others in their order; a request that names no item of the table
    changes nothing. *)
Theorem unsubscribe_removes_named (request : list string)
    (alarm_name region : string) (env : Env) :
  Fault ∉ take (length request) (script env) ->
  exists env',
    unsubscribe request alarm_name region env = (Ret true, env') /\
    table env' =
      filter (fun it => ~ named_by (ran_of alarm_name region) request it)
             (table env) /\
    ((forall it, it ∈ table env ->
                 ~ named_by (ran_of alarm_name region) request it) ->
     table env' = table env).
Proof.
  intros Hs.
  destruct (for_each_writes_done
              (fun arn => Delete (key_item (ran_of alarm_name region) arn))
              (key_item (ran_of alarm_name region))
              (fun arn => mkItem (ran_of alarm_name region) arn ∅)
              remove_key request env
              (of_dict_key_item (ran_of alarm_name region)) Hs)
    as (env' & He & Ht & _).
  exists env'. split; [|split].
  - unfold unsubscribe_resource_to_alarm, try_except, bind, ret.
    unfold delete_item. by rewrite He.
  - by rewrite Ht, foldl_remove_key.
  - intros Hnone. rewrite Ht, foldl_remove_key.
    by apply list_filter_True.
Qed.

(** X4.  When the write for one resource of a request fails after the
    writes before it succeeded, subscribing returns [False]; the resources
    before it stay subscribed, and for the resources after it no write is
    sent. *)
Theorem subscribe_stops_at_failure (done rest : list string)
    (arn alarm_name region : string) (env : Env)
    (oks s : list Decision) :
  script env = oks ++ Fault :: s ->
  length oks = length done ->
  Fault ∉ oks ->
  exists env',
    subscribe (done ++ arn :: rest) alarm_name region env
      = (Ret false, env') /\
    (forall a, a ∈ done ->
               subscribed (ran_of alarm_name region) a (table env')) /\
    journal env' =
      journal env ++
      ((fun a => Put (key_item (ran_of alarm_name region) a)) <$>
         (done ++ [arn])) /\
    script env' = s.
Proof.
  intros Hscript Hlen Hoks.
  destruct (for_each_writes_done
              (fun a => Put (key_item (ran_of alarm_name region) a))
              (key_item (ran_of alarm_name region))
              (fun a => mkItem (ran_of alarm_name region) a ∅)
              upsert done env
              (of_dict_key_item (ran_of alarm_name region)))
    as (env1 & He & Ht & Hs & Hj & _).
  { by rewrite Hscript, <- Hlen, take_app_length. }
  rewrite Hscript, <- Hlen, drop_app_length in Hs.
  set (f := fun a => put_item (key_item (ran_of alarm_name region) a)).
  assert (f arn env1 =
          (Raise ClientError,
           set_script s
             (log_write (Put (key_item (ran_of alarm_name region) arn))
                env1))) as Hfail.
  { unfold f, put_item, write_request. simpl. by rewrite Hs. }
  exists (set_script s
            (log_write (Put (key_item (ran_of alarm_name region) arn)) env1)).
  split; [|split; [|split]].
  - unfold subscribe_resource_to_alarm, try_except, bind at 1, ret.
    fold f.
    by rewrite (for_each_raises f done arn rest env env1 ClientError _ He
                  Hfail).
  - intros a Ha. simpl.
    destruct (for_each_put_subscribed (ran_of alarm_name region) done env
                env1 He) as [Hin _].
    by apply Hin.
  - simpl. rewrite Hj, fmap_app. by rewrite <- (assoc_L (++)).
  - done.
Qed.

(** X14.  Subscribing is idempotent: once a request has been subscribed
    with success, subscribing it again leaves the table as it is,
    whatever the second call returns. *)
Theorem subscribe_again_changes_nothing (request : list string)
    (alarm_name region : string) (env env1 env1' : Env) :
  subscribe request alarm_name region env = (Ret true, env1) ->
  table env1' = table env1 ->
  table (subscribe request alarm_name region env1').2 = table env1.
Proof.
  intros Hsub%subscribe_returns Ht.
  pose proof (for_each_put_subscribed _ _ _ _ Hsub) as [Hin _].
  pose proof (for_each_put_bare _ _ _ _ Hsub) as Hbare.
  unfold subscribe_resource_to_alarm.
  rewrite try_except_table, bind_ret_table, <- Ht.
  assert (forall l env0,
            l ⊆ request -> table env0 = table env1 ->
            table (for_each (fun arn =>
                     put_item (key_item (ran_of alarm_name region) arn))
                     l env0).2 = table env0) as Hloop;
    [|by apply Hloop].
  induction l as [|a l IH]; intros env0 Hl Ht0; simpl; [done|].
  unfold bind.
  destruct (put_item (key_item (ran_of alarm_name region) a) env0)
    as [[[]|e] env'] eqn:Ep.
  - apply write_request_returns in Ep as (it0 & Hit0 & Ht' & _).
    rewrite of_dict_key_item in Hit0. injection Hit0 as <-.
    rewrite upsert_fixed in Ht'.
    + rewrite IH; [done|set_solver|congruence].
    + simpl. rewrite Ht0. apply Hin, Hl. by left.
    + intros x Hx Hk. rewrite Ht0 in Hx.
      apply same_key_true in Hk as [Hr Ha]. simpl in *.
      rewrite (Hbare x Hx); [by rewrite <- Ha|].
      split; [done|]. rewrite <- Ha. apply Hl. by left.
  - by apply write_request_raises in Ep as (_ & Ht' & _).
Qed.

(** X15.  Subscribing then unsubscribing a request, with the store
    answering the deletes, leaves the table without the items the request
    names: it is the table from before when none of them was there. *)
Theorem subscribe_then_unsubscribe (request : list string)
    (alarm_name region : string) (env env1 env1' : Env) :
  subscribe request alarm_name region env = (Ret true, env1) ->
  table env1' = table env1 ->
  Fault ∉ take (length request) (script env1') ->
  exists env2,
    unsubscribe request alarm_name region env1' = (Ret true, env2) /\
    table env2 =
      filter (fun it => ~ named_by (ran_of alarm_name region) request it)
             (table env) /\
    ((forall it, it ∈ table env ->
                 ~ named_by (ran_of alarm_name region) request it) ->
     table env2 = table env).
Proof.
  intros Hsub%subscribe_returns Ht Hs.
  destruct (for_each_writes_done
              (fun arn => Delete (key_item (ran_of alarm_name region) arn))
              (key_item (ran_of alarm_name region))
              (fun arn => mkItem (ran_of alarm_name region) arn ∅)
              remove_key request env1'
              (of_dict_key_item (ran_of alarm_name region)) Hs)
    as (env2 & He & Ht2 & _).
  assert (table env2 =
          filter (fun it => ~ named_by (ran_of alarm_name region) request it)
                 (table env)) as Hfinal.
  { rewrite Ht2, foldl_remove_key, Ht.
    pose proof (for_each_writes_filter
                  (fun it => ~ named_by (ran_of alarm_name region) request it)
                  (fun arn => Put (key_item (ran_of alarm_name region) arn))
                  (key_item (ran_of alarm_name region))
                  upsert request) as Hf.
    assert (forall arn it t, arn ∈ request ->
              of_dict (key_item (ran_of alarm_name region) arn) = Some it ->
              filter (fun it =>
                        ~ named_by (ran_of alarm_name region) request it)
                     (upsert it t)
              = filter (fun it =>
                          ~ named_by (ran_of alarm_name region) request it)
                       t) as Hch.
    { intros arn it t Harn Hit.
      rewrite of_dict_key_item in Hit. injection Hit as <-.
      apply filter_upsert.
      - intros Hn. apply Hn. by split.
      - intros x. by apply not_named_by_same_key. }
    unfold put_item in Hsub. by rewrite <- (Hf Hch env), Hsub. }
  exists env2. split; [|split; [done|]].
  - unfold unsubscribe_resource_to_alarm, try_except, bind, ret.
    unfold delete_item. by rewrite He.
  - intros Hnone. rewrite Hfinal. by apply list_filter_True.
Qed.

End WriteEffects.

(** ** Reading: what the list operations return *)

Lemma first_occurrences_snoc l x :
  first_occurrences (l ++ [x]) =
  if decide (x ∈ first_occurrences l) then first_occurrences l
  else first_occurrences l ++ [x].
Proof. unfold first_occurrences. by rewrite foldl_snoc. Qed.

Lemma bump_keys (l : list Item) :
  (foldl bump [] l).*1 = first_occurrences (key_ResourceArn <$> l).
Proof.
  induction l as [|it l IH] using rev_ind; [done|].
  rewrite fmap_app, foldl_snoc.
  change (key_ResourceArn <$> [it]) with [key_ResourceArn it].
  rewrite first_occurrences_snoc, <- IH. unfold bump at 1.
  destruct (od_get (key_ResourceArn it) (foldl bump [] l)) as [n|] eqn:E;
    rewrite od_set_keys, E.
  - rewrite decide_True; [done|].
    apply od_get_elem in E. apply list_elem_of_fmap. by eexists (_, _).
  - rewrite decide_False; [done|]. by apply od_get_None_keys.
Qed.

Section Reads.
Variable unquote : string -> string.
Variable epoch_seconds : Z -> Z.

(** X8.  A lookup of subscribers never reports a resource that is not
    subscribed to the alarm, whatever the store does; when the store
    answers every request it reports exactly the subscribed resources. *)
Theorem lookup_reports_subscribers (alarm_name region : string) (env : Env) :
  exists found env',
    subscribers_to_alarm unquote alarm_name region env = (Ret found, env') /\
    table env' = table env /\
    (forall arn,
       arn ∈ found ->
       subscribed (Str.format_colon (unquote region) (unquote alarm_name))
         arn (table env)) /\
    (Fault ∉ script env ->
     forall arn,
       subscribed (Str.format_colon (unquote region) (unquote alarm_name))
         arn (table env) ->
       arn ∈ found).
Proof.
  destruct (subscribers_to_alarm_run unquote alarm_name region env)
    as (s' & _ & ->).
  eexists _, _. split; [done|]. split; [done|]. split.
  - intros arn Harn%elem_of_sorted%elem_of_list_to_set.
    by apply subscribers_read_sound.
  - intros Hs arn Harn. apply elem_of_sorted, elem_of_list_to_set.
    by apply subscribers_read_complete.
Qed.

(** X7.  [subscribed_with_state] returns its entries in the order in which
    the resources are first met among the items read; it does not sort
    them. *)
Theorem subscribed_with_state_order (alarm_state : string) (env : Env) :
  let read := state_read unquote alarm_state env in
  exists env',
    subscribed_with_state unquote alarm_state env =
    (Ret ((fun arn => state_entry arn (alarm_count arn read)) <$>
            first_occurrences (key_ResourceArn <$> read)),
     env').
Proof.
  intros read.
  destruct (subscribed_with_state_run unquote alarm_state env) as [s' ->].
  fold read. eexists. do 2 f_equal.
  destruct (counts_foldl unquote read) as [Hd Hc].
  rewrite <- bump_keys. unfold entries_of.
  rewrite <- !list_fmap_compose.
  apply list_fmap_ext. intros i [arn n] Hi. simpl. f_equal.
  apply list_elem_of_lookup_2 in Hi.
  apply (od_elem_get _ _ _ Hd) in Hi. rewrite Hc in Hi.
  case_decide; congruence.
Qed.

(** X13.  When the store answers every request and every RegionAlarmName
    holds a colon, [all_subscribed_alarms] returns one entry for each
    distinct RegionAlarmName of the table, in increasing order, and the
    entry holds the two parts of the name as Region and AlarmName and
    nothing else. *)
Theorem all_subscribed_alarms_distinct (env : Env) :
  Fault ∉ script env ->
  (forall it, it ∈ table env ->
              Str.has_colon (key_RegionAlarmName it) = true) ->
  exists alarms,
    (all_subscribed_alarms env).1 = Ret alarms /\
    Forall2
      (fun ran alarm =>
         exists region name,
           Str.cut ran = Some (region, name) /\
           alarm = <["Region" := AttrS region]>
                     (<["AlarmName" := AttrS name]> ∅))
      (sorted (list_to_set (key_RegionAlarmName <$> table env))) alarms.
Proof.
  intros Hs Hcolon. rewrite all_subscribed_alarms_run.
  rewrite scan_read_all by done.
  rewrite decide_True by (by apply Forall_forall).
  eexists. split; [done|].
  pose proof (values_by_key_Forall2
                (foldl (store_entry alarm_entry) ∅ (table env))) as H.
  rewrite dom_foldl_store, dom_empty_L, (right_id_L ∅ (∪)) in H.
  eapply Forall2_impl; [exact H|]. simpl. intros ran alarm.
  rewrite lookup_foldl_store.
  destruct (last_named ran (table env)) as [it|] eqn:E;
    [|by rewrite lookup_empty].
  intros [= <-]. apply last_named_elem in E as [Hit <-].
  destruct (has_colon_cut _ (Hcolon it Hit)) as (region & name & Hc).
  exists region, name. split; [done|].
  unfold entry_of. by rewrite Hc.
Qed.

(** X6.  When the service answers every request and every alarm of the
    region holds the six keys that [filtered_alarm] reads,
    [get_cloudwatch_alarms_region] returns the reshaped form of every
    alarm, in the order of the service, wherever the pages end.  When an
    alarm of the region lacks one of the keys, as an alarm on a
    metric-math expression lacks MetricName and Namespace, the operation
    ends with KeyError, which nothing catches. *)
Theorem get_cloudwatch_alarms_region_all (region : string) (env : Env) :
  Fault ∉ script env ->
  let alarms := default [] (metric_alarms env !! unquote region) in
  (forall filtered,
     Forall2 (fun alarm d => filtered_alarm epoch_seconds alarm = Ret d)
             alarms filtered ->
     exists env',
       get_cloudwatch_alarms_region unquote epoch_seconds region env
         = (Ret filtered, env')) /\
  (forall alarm,
     MetricName alarm = None \/ Namespace alarm = None ->
     filtered_alarm epoch_seconds alarm = Raise KeyError) /\
  (Exists (fun alarm => filtered_alarm epoch_seconds alarm = Raise KeyError)
          alarms ->
   (get_cloudwatch_alarms_region unquote epoch_seconds region env).1
     = Raise KeyError).
Proof.
  intros Hs alarms.
  destruct (get_cloudwatch_alarms_region_run unquote epoch_seconds region
              env) as [Hret Hraise].
  rewrite delivered_no_fault in Hret, Hraise by done.
  split; [exact Hret|]. split; [|exact Hraise].
  intros alarm Hnone. unfold filtered_alarm.
  destruct (AlarmArn alarm), (AlarmName alarm), (MetricName alarm),
    (Namespace alarm), (StateValue alarm), (StateUpdatedTimestamp alarm);
    by destruct Hnone.
Qed.

(** X16.  Splitting one page in two changes the result of none of
    [alarms_for_subscriber], [subscribed_with_state] and
    [get_cloudwatch_alarms_region]. *)
Theorem page_split_changes_no_list (s s' : list Decision) (env : Env) :
  split_page s s' ->
  (forall resource_arn,
     (alarms_for_subscriber unquote resource_arn (set_script s env)).1 =
     (alarms_for_subscriber unquote resource_arn (set_script s' env)).1) /\
  (forall alarm_state,
     (subscribed_with_state unquote alarm_state (set_script s env)).1 =
     (subscribed_with_state unquote alarm_state (set_script s' env)).1) /\
  (forall region,
     (get_cloudwatch_alarms_region unquote epoch_seconds region
        (set_script s env)).1 =
     (get_cloudwatch_alarms_region unquote epoch_seconds region
        (set_script s' env)).1).
Proof.
  intros Hsplit. split; [|split].
  - intros resource_arn. rewrite !alarms_for_subscriber_run.
    unfold alarms_read. simpl. by rewrite (delivered_split _ s s').
  - intros alarm_state.
    destruct (subscribed_with_state_run unquote alarm_state
                (set_script s env)) as [r1 ->].
    destruct (subscribed_with_state_run unquote alarm_state
                (set_script s' env)) as [r2 ->].
    unfold state_read. simpl. by rewrite (delivered_split _ s s').
  - intros region. unfold get_cloudwatch_alarms_region, run_pages. simpl.
    match goal with
    | |- context [paginate ?b ?src ?acc s] =>
        pose proof (paginate_conclude b s src acc) as H1;
        pose proof (paginate_conclude b s' src acc) as H2;
        destruct (paginate b src acc s) as [r1 s1];
        destruct (paginate b src acc s') as [r2 s2]
    end.
    simpl in H1, H2. subst r1 r2. unfold conclude.
    by rewrite (delivered_split _ s s').
Qed.

End Reads.

(** X5.  [get_cloudwatch_events_state] sends one request and returns its
    page: when the store ends the page after [n] events with a
    continuation key, the events after them are never asked for, and the
    result lacks them as soon as more than [n] events match. *)
Theorem events_query_returns_first_page (state : string) (env : Env)
    (n : nat) (s : list Decision) :
  script env = Limit n :: s ->
  get_cloudwatch_events_state state env
    = (Ret (take n (events_in_state state env)), set_script s env) /\
  ((n < length (events_in_state state env))%nat ->
   (get_cloudwatch_events_state state env).1
     ≠ Ret (events_in_state state env)).
Proof.
  intros Hs. unfold get_cloudwatch_events_state. rewrite Hs. simpl.
  split; [done|]. intros Hn [= Heq].
  apply (f_equal length) in Heq. fold (events_in_state state env) in Heq.
  rewrite length_take in Heq. lia.
Qed.

(** ** Notifications: what the handler writes, and what malformed records
    do *)

Lemma no_fault_take (n : nat) (s : list Decision) :
  Fault ∉ s -> Fault ∉ take n s.
Proof.
  intros Hs Hin. apply Hs. rewrite <- (take_drop n s).
  apply elem_of_app. by left.
Qed.

Lemma replace_item_keys it t :
  item_key <$> replace_item it t = item_key <$> t.
Proof.
  unfold replace_item. rewrite <- list_fmap_compose.
  apply list_fmap_ext. intros i x _. simpl.
  destruct (same_key it x) eqn:Ek; [|done].
  apply same_key_true in Ek as [Hr Ha]. unfold item_key. by rewrite Hr, Ha.
Qed.

Section Handler.
Variable unquote : string -> string.
Variable json_loads : string -> option Payload.
Variable strptime_timestamp : string -> option Z.

#[local] Abbreviation parse := (parse_record json_loads strptime_timestamp).
#[local] Abbreviation incoming_record' :=
  (incoming_record unquote json_loads strptime_timestamp).
#[local] Abbreviation incoming :=
  (incoming_cloudwatch_alarm unquote json_loads strptime_timestamp).

(** X17.  For a record that meets the contract, with the store answering
    every request, the handler sends one [put_item] for each resource
    subscribed to the alarm whose region and name are the decoded ones,
    in increasing order of resource, and the item put carries the region
    and name as the message has them. *)
Theorem incoming_record_writes (updated : Z) (record : Notification)
    (p : Parsed) (env : Env) :
  parse record = Some p ->
  Fault ∉ script env ->
  let found :=
    sorted (list_to_set (key_ResourceArn <$>
      filter (fun it => key_RegionAlarmName it =
                Str.format_colon (unquote (p_region p)) (unquote (p_name p)))
             (table env))) in
  exists env',
    incoming_record' updated record env = (Ret tt, env') /\
    journal env' =
      journal env ++
      ((fun arn => Put (to_dict (new_item p arn updated))) <$> found) /\
    table env' =
      foldl (fun t arn => upsert (new_item p arn updated) t) (table env)
            found.
Proof.
  intros Hp Hs found.
  rewrite (incoming_record_parsed _ _ _ _ _ p) by done. unfold bind.
  destruct (subscribers_to_alarm_run unquote (p_name p) (p_region p) env)
    as (s' & Hs' & ->).
  assert (sorted (list_to_set (key_ResourceArn <$>
            subscribers_read unquote (p_name p) (p_region p) env)) = found)
    as ->.
  { unfold found, subscribers_read. rewrite delivered_no_fault by done.
    simpl. do 3 f_equal. apply list_filter_iff. intros it. simpl.
    by rewrite bool_decide_eq_true. }
  destruct (for_each_writes_done
              (fun arn => Put (to_dict (new_item p arn updated)))
              (fun arn => to_dict (new_item p arn updated))
              (fun arn => new_item p arn updated)
              upsert found (set_script s' env))
    as (env' & He & Ht & _ & Hj & _).
  { intros arn. apply of_dict_new_item. }
  { simpl. apply no_fault_take. by apply (no_fault_suffix s' (script env)). }
  exists env'. split; [exact He|]. by split.
Qed.

(** X9.  For a batch of records that meet the contract, with region and
    name free of percent escapes and the store answering every request,
    the handler returns [True] and rewrites each item of the table whose
    alarm a record names: the item becomes the six attributes of the last
    such record of the batch, with the time of the ingestion as Updated;
    every other item stays as it is. *)
Theorem incoming_rewrites_items (event : list Notification)
    (ps : list Parsed) (env : Env) :
  Forall2 (fun r p => parse r = Some p /\ plain unquote p) event ps ->
  Fault ∉ script env ->
  exists env',
    incoming event env = (Ret true, env') /\
    table env' =
      (fun it =>
         match last (filter (fun p => key_RegionAlarmName it = p_ran p) ps)
         with
         | Some p => new_item p (key_ResourceArn it) (clock env)
         | None => it
         end) <$> table env.
Proof.
  intros Hps Hs.
  destruct (incoming_no_fault unquote json_loads strptime_timestamp
              event ps env Hps Hs) as (env' & He & Ht).
  exists env'. split; [done|]. rewrite Ht.
  apply list_fmap_ext. intros i it _. apply update_all_last.
Qed.

Lemma for_each_put_keys p updated (subs : list string) : forall env,
  (forall arn, arn ∈ subs -> subscribed (p_ran p) arn (table env)) ->
  item_key <$>
    table (for_each (fun arn => put_item (to_dict (new_item p arn updated)))
             subs env).2
  = item_key <$> table env.
Proof.
  induction subs as [|arn subs IH]; intros env Hin; simpl; [done|].
  unfold bind.
  destruct (put_item (to_dict (new_item p arn updated)) env)
    as [[[]|e] env1] eqn:Ep.
  - apply write_request_returns in Ep as (it & Hit & Ht & _).
    rewrite of_dict_new_item in Hit. injection Hit as <-.
    rewrite upsert_present in Ht by (simpl; apply Hin; by left).
    rewrite IH.
    + by rewrite Ht, replace_item_keys.
    + intros a Ha. rewrite Ht. apply subscribed_replace_item.
      apply Hin. by right.
  - apply write_request_raises in Ep as (_ & Ht & _). simpl. by rewrite Ht.
Qed.

Lemma incoming_record_keys updated record p env :
  parse record = Some p -> plain unquote p ->
  item_key <$> table (incoming_record' updated record env).2
  = item_key <$> table env.
Proof.
  intros Hp [Hregion Hname].
  rewrite (incoming_record_parsed _ _ _ _ _ p) by done. unfold bind.
  destruct (subscribers_to_alarm_run unquote (p_name p) (p_region p) env)
    as (s' & _ & ->).
  rewrite for_each_put_keys; [done|].
  intros arn Harn%elem_of_sorted%elem_of_list_to_set. simpl.
  apply subscribers_read_sound in Harn.
  by rewrite Hregion, Hname in Harn.
Qed.

(** X10.  Whatever the store does, and whatever the handler returns, a
    batch of records that meet the contract with region and name free of
    percent escapes creates no item and deletes none: the keys of the
    table are the same, in the same order, after the handler as before. *)
Theorem incoming_keeps_keys (event : list Notification) (env : Env) :
  Forall (well_formed unquote json_loads strptime_timestamp) event ->
  item_key <$> table (incoming event env).2 = item_key <$> table env.
Proof.
  intros Hev. unfold incoming_cloudwatch_alarm.
  rewrite bind_ret_table, try_except_table.
  generalize (clock env). intros updated. revert env.
  induction Hev as [|r event (p & Hp & Hplain) _ IH]; intros env; [done|].
  simpl. unfold bind.
  pose proof (incoming_record_keys updated r p env Hp Hplain) as Hk.
  destruct (incoming_record' updated r env) as [[[]|e] env1]; simpl in Hk.
  - by rewrite IH.
  - done.
Qed.

(** X11.  An exception other than ClientError that a record raises leaves
    the handler: the writes of the records before it stay, the records
    after it are not looked at, and no value is returned.  A record whose
    subscription identifier has no fourth field raises IndexError, one
    whose message does not decode raises ValueError, one whose message
    lacks AlarmName raises KeyError, each before any request to the
    store. *)
Theorem malformed_record_ends_handler :
  (forall done record rest env env1 env2 e,
     e ≠ ClientError ->
     for_each (incoming_record' (clock env)) done env = (Ret tt, env1) ->
     incoming_record' (clock env) record env1 = (Raise e, env2) ->
     incoming (done ++ record :: rest) env = (Raise e, env2)) /\
  (forall updated record env,
     Str.split (EventSubscriptionArn record) !! 3%nat = None ->
     incoming_record' updated record env = (Raise IndexError, env)) /\
  (forall updated record env,
     is_Some (Str.split (EventSubscriptionArn record) !! 3%nat) ->
     json_loads (Sns_Message record) = None ->
     incoming_record' updated record env = (Raise ValueError, env)) /\
  (forall updated record alarm env,
     is_Some (Str.split (EventSubscriptionArn record) !! 3%nat) ->
     json_loads (Sns_Message record) = Some alarm ->
     msg_AlarmName alarm = None ->
     incoming_record' updated record env = (Raise KeyError, env)).
Proof.
  split; [|split; [|split]].
  - intros done record rest env env1 env2 e He Hdone Hrec.
    unfold incoming_cloudwatch_alarm, bind, try_except, ret.
    rewrite (for_each_raises _ done record rest env env1 e env2 Hdone Hrec).
    by destruct e.
  - intros updated record env Hsplit.
    unfold incoming_record, bind. by rewrite Hsplit.
  - intros updated record env [region Hsplit] Hjson.
    unfold incoming_record, bind. by rewrite Hsplit, Hjson.
  - intros updated record alarm env [region Hsplit] Hjson Hname.
    unfold incoming_record, bind. rewrite Hsplit, Hjson. simpl.
    by rewrite Hname.
Qed.

(** X12.  The state, the namespace and the time of a message are read
    only when an item is built for a subscriber.  A record that lacks
    NewStateValue passes without a write when its alarm has no subscriber;
    when the store answers the lookup and the alarm has a subscriber, the
    record raises KeyError before any write is sent. *)
Theorem missing_state_needs_subscriber (updated : Z) (record : Notification)
    (region name : string) (alarm : Payload) (env : Env) :
  Str.split (EventSubscriptionArn record) !! 3%nat = Some region ->
  json_loads (Sns_Message record) = Some alarm ->
  msg_AlarmName alarm = Some name ->
  msg_NewStateValue alarm = None ->
  ((forall arn,
      ~ subscribed (Str.format_colon (unquote region) (unquote name)) arn
          (table env)) ->
   exists s',
     incoming_record' updated record env = (Ret tt, set_script s' env)) /\
  (Fault ∉ script env ->
   (exists arn,
      subscribed (Str.format_colon (unquote region) (unquote name)) arn
        (table env)) ->
   exists s',
     incoming_record' updated record env
       = (Raise KeyError, set_script s' env)).
Proof.
  intros Hsplit Hjson Hname Hstate.
  assert (forall env0,
            incoming_record' updated record env0 =
            bind (subscribers_to_alarm unquote name region)
              (fun subscribers =>
                 for_each (fun arn : string => @raise unit KeyError)
                          subscribers) env0) as Hrec.
  { intros env0. unfold incoming_record. unfold bind at 1 2 3.
    rewrite Hsplit, Hjson. simpl. rewrite Hname. simpl. unfold bind at 1 3.
    destruct (subscribers_to_alarm unquote name region env0)
      as [[subs|e] env1]; [|done].
    apply for_each_ext. intros arn env'.
    unfold alarm_item. rewrite Hstate. done. }
  rewrite Hrec. unfold bind.
  destruct (subscribers_to_alarm_run unquote name region env)
    as (s' & _ & ->).
  split.
  - intros Hnone. rewrite sorted_empty; [by exists s'|].
    intros arn Harn%elem_of_list_to_set%subscribers_read_sound.
    by apply (Hnone arn).
  - intros Hs [arn Harn].
    assert (arn ∈ sorted (list_to_set (key_ResourceArn <$>
              subscribers_read unquote name region env))) as Hin.
    { apply elem_of_sorted, elem_of_list_to_set.
      by apply subscribers_read_complete. }
    destruct (sorted _) as [|a subs]; [by apply elem_of_nil in Hin|].
    by exists s'.
Qed.

End Handler.

(** ** The further properties on examples *)

Section MoreExamples.

#[local] Abbreviation subscribe := (subscribe_resource_to_alarm percent_decode).
#[local] Abbreviation unsubscribe :=
  (unsubscribe_resource_to_alarm percent_decode).
#[local] Abbreviation ingest :=
  (incoming_cloudwatch_alarm percent_decode example_json_loads
     example_strptime).

(** X1 on an example: a subscription in state ALARM, subscribed again. *)
Lemma subscribe_resets_state_example :
  let env :=
    example_env [notified "us-east-1:HighCPU" "r1" "ALARM" 100] [] 200 in
  table (subscribe ["r1"] "HighCPU" "us-east-1" env).2
    = [subscription "us-east-1:HighCPU" "r1"] /\
  attributes (subscription "us-east-1:HighCPU" "r1") = ∅ /\
  to_dict (subscription "us-east-1:HighCPU" "r1")
    = key_item (Str.format_colon (percent_decode "us-east-1")
                  (percent_decode "HighCPU"))
               (key_ResourceArn (subscription "us-east-1:HighCPU" "r1")).
Proof.
  intros env. split; [reflexivity|].
  apply (subscribe_resets_state percent_decode ["r1"] "HighCPU" "us-east-1"
           env (subscribe ["r1"] "HighCPU" "us-east-1" env).2).
  - reflexivity.
  - left.
  - split; [reflexivity|left].
Defined.

(** X3 on an example: one of two subscribers unsubscribed. *)
Lemma unsubscribe_removes_named_example :
  let env :=
    example_env [subscription "us-east-1:HighCPU" "r1";
                 subscription "us-east-1:HighCPU" "r2"] [] 0 in
  exists env',
    unsubscribe ["r1"] "HighCPU" "us-east-1" env = (Ret true, env') /\
    table env' =
      filter (fun it =>
                ~ named_by (Str.format_colon (percent_decode "us-east-1")
                              (percent_decode "HighCPU")) ["r1"] it)
             (table env) /\
    ((forall it, it ∈ table env ->
        ~ named_by (Str.format_colon (percent_decode "us-east-1")
                      (percent_decode "HighCPU")) ["r1"] it) ->
     table env' = table env).
Proof.
  intros env.
  apply (unsubscribe_removes_named percent_decode ["r1"] "HighCPU"
           "us-east-1" env).
  simpl. apply not_elem_of_nil.
Defined.

(** X4 on an example: three resources, the second write fails. *)
Lemma subscribe_stops_at_failure_example :
  exists env',
    subscribe (["r1"] ++ "r2" :: ["r3"]) "HighCPU" "us-east-1"
      (example_env [] [Rest; Fault] 0)
    = (Ret false, env') /\
    (forall a, a ∈ ["r1"] ->
       subscribed (Str.format_colon (percent_decode "us-east-1")
                     (percent_decode "HighCPU")) a (table env')) /\
    journal env' =
      journal (example_env [] [Rest; Fault] 0) ++
      ((fun a => Put (key_item
                        (Str.format_colon (percent_decode "us-east-1")
                           (percent_decode "HighCPU")) a)) <$>
         (["r1"] ++ ["r2"])) /\
    script env' = [].
Proof.
  apply (subscribe_stops_at_failure percent_decode ["r1"] ["r3"] "r2"
           "HighCPU" "us-east-1" (example_env [] [Rest; Fault] 0) [Rest] []).
  - reflexivity.
  - reflexivity.
  - intros H. apply elem_of_cons in H as [H|H]; [discriminate H|].
    by apply elem_of_nil in H.
Defined.

(** X5 on an example: two events in the state, a page of one. *)
Lemma events_query_returns_first_page_example :
  let env :=
    events_env [example_event "e1"; example_event "e2"] [Limit 1] in
  get_cloudwatch_events_state "set" env
    = (Ret (take 1 (events_in_state "set" env)), set_script [] env) /\
  ((1 < length (events_in_state "set" env))%nat ->
   (get_cloudwatch_events_state "set" env).1
     ≠ Ret (events_in_state "set" env)).
Proof.
  intros env.
  apply (events_query_returns_first_page "set" env 1 []). reflexivity.
Defined.

(** X6 on an example: two alarms in pages of one; and, with an alarm on a
    metric-math expression between them, the KeyError. *)
Lemma get_cloudwatch_alarms_region_all_example :
  (exists env',
     get_cloudwatch_alarms_region percent_decode example_epoch_seconds
       "us-east-1"
       (alarms_env [example_alarm "a"; example_alarm "b"]
          [Limit 1; Limit 1])
     = (Ret [example_filtered "a"; example_filtered "b"], env')) /\
  (get_cloudwatch_alarms_region percent_decode example_epoch_seconds
     "us-east-1"
     (alarms_env [example_alarm "a"; math_alarm "m"; example_alarm "b"]
        [Limit 1; Limit 1])).1
  = Raise KeyError.
Proof.
  assert (Fault ∉ [Limit 1; Limit 1]) as Hs.
  { intros H.
    repeat (apply elem_of_cons in H as [H|H]; [discriminate H|]).
    by apply elem_of_nil in H. }
  split.
  - destruct (get_cloudwatch_alarms_region_all percent_decode
                example_epoch_seconds "us-east-1"
                (alarms_env [example_alarm "a"; example_alarm "b"]
                   [Limit 1; Limit 1]) Hs) as (Hret & _).
    apply Hret. repeat constructor.
  - destruct (get_cloudwatch_alarms_region_all percent_decode
                example_epoch_seconds "us-east-1"
                (alarms_env [example_alarm "a"; math_alarm "m";
                             example_alarm "b"] [Limit 1; Limit 1]) Hs)
      as (_ & _ & Hraise).
    apply Hraise. right. left. reflexivity.
Defined.

(** X7 on an example: the resource met first comes first, though its name
    is the greater. *)
Example subscribed_with_state_order_example :
  (subscribed_with_state percent_decode "ALARM"
     (example_env [notified "us-east-1:HighCPU" "r2" "ALARM" 100;
                   notified "us-east-1:HighCPU" "r1" "ALARM" 100;
                   notified "us-east-1:LowDisk" "r2" "ALARM" 100] [] 0)).1
  = Ret [state_entry "r2" 2; state_entry "r1" 1].
Proof. reflexivity. Qed.

(** X9 on an example: two notifications of one alarm in a batch. *)
Lemma incoming_rewrites_items_example :
  let env :=
    example_env [subscription "us-east-1:HighCPU" "r1";
                 subscription "us-east-1:LowDisk" "r2"] [] 100 in
  let ps := [mkParsed "us-east-1" "HighCPU" "ALARM" "AWS/EC2" example_epoch;
             mkParsed "us-east-1" "HighCPU" "OK" "AWS/EC2" example_epoch] in
  exists env',
    ingest [example_record "HighCPU" "ALARM"; example_record "HighCPU" "OK"]
      env = (Ret true, env') /\
    table env' =
      (fun it =>
         match last (filter (fun p => key_RegionAlarmName it = p_ran p) ps)
         with
         | Some p => new_item p (key_ResourceArn it) (clock env)
         | None => it
         end) <$> table env.
Proof.
  intros env ps.
  apply (incoming_rewrites_items percent_decode example_json_loads
           example_strptime).
  - repeat constructor; reflexivity.
  - simpl. apply not_elem_of_nil.
Defined.

(** X10 on an example: the write fails, the keys stay. *)
Lemma incoming_keeps_keys_example :
  let env :=
    example_env [subscription "us-east-1:HighCPU" "r1"] [Rest; Fault] 100 in
  item_key <$> table (ingest [example_record "HighCPU" "ALARM"] env).2
  = item_key <$> table env.
Proof.
  intros env.
  apply (incoming_keeps_keys percent_decode example_json_loads
           example_strptime).
  constructor; [|constructor].
  apply example_well_formed; [left|reflexivity].
Defined.

(** X12 on an example: a message with an alarm name only. *)
Lemma missing_state_needs_subscriber_example :
  let record :=
    mkNotification "arn:aws:sns:us-east-1:123:topic" (bare_message "HighCPU")
  in
  let env := example_env [subscription "us-east-1:HighCPU" "r1"] [] 100 in
  exists s',
    incoming_record percent_decode bare_json_loads example_strptime 100
      record env
    = (Raise KeyError, set_script s' env).
Proof.
  intros record env.
  destruct (missing_state_needs_subscriber percent_decode bare_json_loads
              example_strptime 100 record "us-east-1" "HighCPU"
              (mkPayload (Some "HighCPU") None None None) env)
    as [_ Hraise]; try reflexivity.
  apply Hraise.
  - simpl. apply not_elem_of_nil.
  - exists "r1", (subscription "us-east-1:HighCPU" "r1").
    split; [left|split; reflexivity].
Defined.

(** X13 on an example: two items of one alarm and one of another. *)
Lemma all_subscribed_alarms_distinct_example :
  let env :=
    example_env [subscription "us-east-1:LowDisk" "r1";
                 subscription "us-east-1:HighCPU" "r1";
                 subscription "us-east-1:HighCPU" "r2"] [Limit 2] 0 in
  exists alarms,
    (all_subscribed_alarms env).1 = Ret alarms /\
    Forall2
      (fun ran alarm =>
         exists region name,
           Str.cut ran = Some (region, name) /\
           alarm = <["Region" := AttrS region]>
                     (<["AlarmName" := AttrS name]> ∅))
      (sorted (list_to_set (key_RegionAlarmName <$> table env))) alarms.
Proof.
  intros env. apply (all_subscribed_alarms_distinct env).
  - simpl. intros H.
    apply elem_of_cons in H as [H|H]; [discriminate H|].
    by apply elem_of_nil in H.
  - intros it Hit.
    repeat (apply elem_of_cons in Hit as [->|Hit]; [reflexivity|]).
    by apply elem_of_nil in Hit.
Defined.

(** X14 on an example: the same request subscribed twice. *)
Lemma subscribe_again_changes_nothing_example :
  let env := example_env [] [] 0 in
  let env1 := (subscribe ["r1"; "r2"] "HighCPU" "us-east-1" env).2 in
  table (subscribe ["r1"; "r2"] "HighCPU" "us-east-1"
           (set_script [Rest; Fault] env1)).2 = table env1.
Proof.
  intros env env1.
  apply (subscribe_again_changes_nothing percent_decode ["r1"; "r2"]
           "HighCPU" "us-east-1" env env1); reflexivity.
Defined.

(** X15 on an example: subscribed, then unsubscribed. *)
Lemma subscribe_then_unsubscribe_example :
  let env := example_env [subscription "us-east-1:LowDisk" "r1"] [] 0 in
  let env1 := (subscribe ["r1"] "HighCPU" "us-east-1" env).2 in
  exists env2,
    unsubscribe ["r1"] "HighCPU" "us-east-1" env1 = (Ret true, env2) /\
    table env2 =
      filter (fun it =>
                ~ named_by (Str.format_colon (percent_decode "us-east-1")
                              (percent_decode "HighCPU")) ["r1"] it)
             (table env) /\
    ((forall it, it ∈ table env ->
        ~ named_by (Str.format_colon (percent_decode "us-east-1")
                      (percent_decode "HighCPU")) ["r1"] it) ->
     table env2 = table env).
Proof.
  intros env env1.
  apply (subscribe_then_unsubscribe percent_decode ["r1"] "HighCPU"
           "us-east-1" env env1 env1); try reflexivity.
  simpl. apply not_elem_of_nil.
Defined.

(** X16 on an example: the last page split in two. *)
Lemma page_split_changes_no_list_example :
  let env :=
    example_env [notified "us-east-1:HighCPU" "r1" "ALARM" 100;
                 notified "us-east-1:LowDisk" "r1" "ALARM" 100] [] 0 in
  (subscribed_with_state percent_decode "ALARM" (set_script [] env)).1 =
  (subscribed_with_state percent_decode "ALARM"
     (set_script ([] ++ [Limit 1]) env)).1.
Proof.
  intros env.
  destruct (page_split_changes_no_list percent_decode example_epoch_seconds
              [] ([] ++ [Limit 1]) env (split_end [] 1))
    as (_ & Hstate & _).
  apply Hstate.
Defined.

(** X17 on an example: the alarm named Disk%20Full; the subscribers looked
    up are those of "Disk Full". *)
Lemma incoming_record_writes_example :
  let env :=
    example_env [subscription "us-east-1:Disk%20Full" "r1";
                 subscription "us-east-1:Disk Full" "r2"] [] 100 in
  let p :=
    mkParsed "us-east-1" "Disk%20Full" "ALARM" "AWS/EC2" example_epoch in
  let found :=
    sorted (list_to_set (key_ResourceArn <$>
      filter (fun it => key_RegionAlarmName it =
                Str.format_colon (percent_decode (p_region p))
                  (percent_decode (p_name p)))
             (table env))) in
  found = ["r2"] /\
  exists env',
    incoming_record percent_decode example_json_loads example_strptime 100
      (example_record "Disk%20Full" "ALARM") env = (Ret tt, env') /\
    journal env' =
      journal env ++
      ((fun arn => Put (to_dict (new_item p arn 100))) <$> found) /\
    table env' =
      foldl (fun t arn => upsert (new_item p arn 100) t) (table env) found.
Proof.
  intros env p found. split; [reflexivity|].
  apply (incoming_record_writes percent_decode example_json_loads
           example_strptime 100 (example_record "Disk%20Full" "ALARM") p env).
  - reflexivity.
  - simpl. apply not_elem_of_nil.
Defined.

End MoreExamples.


(** ** Store errors, operation by operation *)

Lemma no_fault_take_step (n : nat) (s : list Decision) :
  head s ≠ Some Fault ->
  bool_decide (Fault ∉ take (S n) s) = bool_decide (Fault ∉ take n (tail s)).
Proof.
  intros Hh. destruct s as [|d s]; simpl.
  - by rewrite take_nil.
  - apply bool_decide_ext. rewrite not_elem_of_cons.
    split; [tauto|]. intros H. split; [|done]. intros <-. by apply Hh.
Qed.

(** A loop of writes in a [try] that returns [True] at its end and [False]
    in its [except]: [False] exactly when one of its requests fails. *)
Lemma write_loop_result (w : string -> Write) (mk : string -> Dict)
    (item : string -> Item) change (request : list string) :
  (forall arn, of_dict (mk arn) = Some (item arn)) ->
  forall env,
    (try_except
       (for_each (fun arn => write_request (w arn) (mk arn) change) request
        ;;; ret true)
       (ret false) env).1
    = Ret (bool_decide (Fault ∉ take (length request) (script env))).
Proof.
  intros Hmk. induction request as [|arn request IH]; intros env.
  - rewrite bool_decide_eq_true_2 by (simpl; apply not_elem_of_nil).
    reflexivity.
  - destruct (decide (head (script env) = Some Fault)) as [Hh|Hh].
    + rewrite bool_decide_eq_false_2.
      * unfold try_except, bind. simpl. unfold bind, write_request.
        simpl. by rewrite Hh.
      * intros Hn. apply Hn. destruct (script env) as [|d s]; [done|].
        simpl in *. injection Hh as ->. by left.
    + specialize (IH (set_table (change (item arn) (table env))
                        (set_script (tail (script env))
                           (log_write (w arn) env)))).
      change (length (arn :: request)) with (S (length request)).
      rewrite no_fault_take_step by done.
      etrans; [|exact IH].
      unfold try_except, bind. simpl. unfold bind.
      by rewrite (write_request_done _ _ _ (item arn)).
Qed.

Lemma subscriber_views_of_read (read : list Item) :
  Forall (fun it => Str.has_colon (key_RegionAlarmName it) = true) read ->
  Forall2
    (fun ran view =>
       exists it, last_named ran read = Some it /\ is_view it view)
    (sorted (list_to_set (key_RegionAlarmName <$> read)))
    (values_by_key (foldl (store_entry subscriber_entry) ∅ read)).
Proof.
  intros Hall.
  pose proof (values_by_key_Forall2
                (foldl (store_entry subscriber_entry) ∅ read)) as H.
  rewrite dom_foldl_store, dom_empty_L, (right_id_L ∅ (∪)) in H.
  eapply Forall2_impl; [exact H|]. simpl. intros ran view.
  rewrite lookup_foldl_store.
  destruct (last_named ran read) as [it|] eqn:E; [|by rewrite lookup_empty].
  intros [= <-]. exists it. split; [done|].
  apply subscriber_entry_is_view.
  apply last_named_elem in E as [Hit _].
  by apply (proj1 (Forall_forall _ _) Hall).
Qed.

Lemma alarm_entries_of_read (read : list Item) :
  Forall (fun it => Str.has_colon (key_RegionAlarmName it) = true) read ->
  Forall2
    (fun ran alarm =>
       exists region name,
         Str.cut ran = Some (region, name) /\
         alarm = <["Region" := AttrS region]>
                   (<["AlarmName" := AttrS name]> ∅))
    (sorted (list_to_set (key_RegionAlarmName <$> read)))
    (values_by_key (foldl (store_entry alarm_entry) ∅ read)).
Proof.
  intros Hall.
  pose proof (values_by_key_Forall2
                (foldl (store_entry alarm_entry) ∅ read)) as H.
  rewrite dom_foldl_store, dom_empty_L, (right_id_L ∅ (∪)) in H.
  eapply Forall2_impl; [exact H|]. simpl. intros ran alarm.
  rewrite lookup_foldl_store.
  destruct (last_named ran read) as [it|] eqn:E; [|by rewrite lookup_empty].
  intros [= <-]. apply last_named_elem in E as [Hit <-].
  destruct (has_colon_cut _ (proj1 (Forall_forall _ _) Hall it Hit))
    as (region & name & Hc).
  exists region, name. split; [done|]. unfold entry_of. by rewrite Hc.
Qed.

Lemma state_entries_of_read (unquote : string -> string) (read : list Item) :
  map snd (entries_of (foldl bump [] read)) =
  (fun arn => state_entry arn (alarm_count arn read)) <$>
    first_occurrences (key_ResourceArn <$> read).
Proof.
  destruct (counts_foldl unquote read) as [Hd Hc].
  rewrite <- bump_keys. unfold entries_of.
  rewrite <- !list_fmap_compose.
  apply list_fmap_ext. intros i [arn n] Hi. simpl. f_equal.
  apply list_elem_of_lookup_2 in Hi.
  apply (od_elem_get _ _ _ Hd) in Hi. rewrite Hc in Hi.
  case_decide; congruence.
Qed.

Section Errors.
Variable unquote : string -> string.
Variable json_loads : string -> option Payload.
Variable strptime_timestamp : string -> option Z.
Variable epoch_seconds : Z -> Z.

#[local] Abbreviation incoming :=
  (incoming_cloudwatch_alarm unquote json_loads strptime_timestamp).
#[local] Abbreviation with_colon :=
  (fun it : Item => Str.has_colon (key_RegionAlarmName it) = true).
#[local] Abbreviation reshaped :=
  (fun (alarm : RawAlarm) (filtered : Dict) =>
     filtered_alarm epoch_seconds alarm = Ret filtered).

(** What each read has received when the request after the pages [ns]
    fails. *)
Lemma subscribers_read_until_fault alarm_name region env ns s :
  script env = (Limit <$> ns) ++ Fault :: s ->
  subscribers_read unquote alarm_name region env =
  take (sum_list ns)
    (filter (fun it =>
               key_RegionAlarmName it =
               Str.format_colon (unquote region) (unquote alarm_name))
            (table env)).
Proof.
  intros Hs. unfold subscribers_read.
  rewrite Hs, delivered_until_fault. simpl. f_equal.
  apply list_filter_iff. intros it. simpl. by rewrite bool_decide_eq_true.
Qed.

Lemma alarms_read_until_fault resource_arn env ns s :
  script env = (Limit <$> ns) ++ Fault :: s ->
  alarms_read unquote resource_arn env =
  take (sum_list ns)
    (filter (fun it => key_ResourceArn it = unquote resource_arn)
            (table env)).
Proof.
  intros Hs. unfold alarms_read.
  rewrite Hs, delivered_until_fault. simpl. f_equal.
  apply list_filter_iff. intros it. simpl. by rewrite bool_decide_eq_true.
Qed.

Lemma state_read_until_fault alarm_state env ns s :
  script env = (Limit <$> ns) ++ Fault :: s ->
  state_read unquote alarm_state env =
  take (sum_list ns)
    (filter (fun it =>
               attributes it !! "StateValue" =
               Some (AttrS (unquote alarm_state)))
            (table env)).
Proof.
  intros Hs. unfold state_read.
  rewrite Hs, delivered_until_fault. simpl. f_equal.
  apply list_filter_iff. intros it. simpl. by rewrite bool_decide_eq_true.
Qed.

Lemma scan_read_until_fault env ns s :
  script env = (Limit <$> ns) ++ Fault :: s ->
  scan_read env = take (sum_list ns) (table env).
Proof.
  intros Hs. unfold scan_read. by rewrite Hs, delivered_until_fault.
Qed.

(** The handler of notifications ends with [True] or with an exception
    that is not the store's. *)
Lemma incoming_outcome event env :
  (incoming event env).1 = Ret true \/
  exists e, (incoming event env).1 = Raise e /\ e ≠ ClientError.
Proof.
  unfold incoming_cloudwatch_alarm, bind, try_except, ret.
  destruct (for_each _ event env) as [[[]|e] env']; [by left| ].
  destruct e; simpl; by eauto.
Qed.

(** The alarms of a list all hold the six keys, or one of them lacks a
    key. *)
Lemma alarms_complete_or_not (l : list RawAlarm) :
  (exists filtered, Forall2 reshaped l filtered) \/
  Exists (fun alarm => filtered_alarm epoch_seconds alarm = Raise KeyError) l.
Proof.
  induction l as [|a l [[ds IH]|IH]].
  - left. by exists [].
  - destruct (filtered_alarm_outcome epoch_seconds a) as [[d Hd]|Hk].
    + left. exists (d :: ds). by constructor.
    + right. by left.
  - right. by right.
Qed.

(** C8, as amended.  No operation that has a [try] lets the store's
    ClientError out, and each returns what its code has built by then.

    - When the request after the pages [ns] fails, each list operation
      returns what it builds from the items of those pages, the first
      [sum_list ns] items that match: the lookup of subscribers their
      sorted distinct resource names; [subscribed_with_state] one entry
      for each resource with its count among them;
      [alarms_for_subscriber] and [all_subscribed_alarms] one entry for
      each distinct RegionAlarmName among them, in increasing order;
      [get_cloudwatch_alarms_region] their reshaped forms.  When the
      first request fails that is the empty list.
    - Subscribing and unsubscribing return [False] when one of their
      writes fails, and [True] otherwise.
    - The handler of notifications never returns [False]: it returns
      [True] whatever the store does to records that meet the
      notification contract.

    (The query of events by state has no [try] and is left out.) *)
Theorem store_errors_stay_inside :
  (forall env,
     (forall resource_arn,
        (alarms_for_subscriber unquote resource_arn env).1
          ≠ Raise ClientError) /\
     (all_subscribed_alarms env).1 ≠ Raise ClientError /\
     (forall region,
        (get_cloudwatch_alarms_region unquote epoch_seconds region env).1
          ≠ Raise ClientError) /\
     (forall alarm_state,
        exists resources,
          (subscribed_with_state unquote alarm_state env).1
            = Ret resources) /\
     (forall alarm_name region,
        exists subscribers,
          (subscribers_to_alarm unquote alarm_name region env).1
            = Ret subscribers) /\
     (forall event,
        (incoming event env).1 = Ret true \/
        exists e, (incoming event env).1 = Raise e /\ e ≠ ClientError) /\
     (forall event,
        Forall (parsed json_loads strptime_timestamp) event ->
        (incoming event env).1 = Ret true)) /\
  (forall request alarm_name region env,
     (subscribe_resource_to_alarm unquote request alarm_name region env).1
       = Ret (bool_decide (Fault ∉ take (length request) (script env))) /\
     (unsubscribe_resource_to_alarm unquote request alarm_name region env).1
       = Ret (bool_decide (Fault ∉ take (length request) (script env)))) /\
  (forall env ns s,
     script env = (Limit <$> ns) ++ Fault :: s ->
     (forall alarm_name region,
        let received :=
          take (sum_list ns)
            (filter (fun it =>
                       key_RegionAlarmName it =
                       Str.format_colon (unquote region)
                         (unquote alarm_name))
                    (table env)) in
        (subscribers_to_alarm unquote alarm_name region env).1
          = Ret (sorted (list_to_set (key_ResourceArn <$> received)))) /\
     (forall alarm_state,
        let received :=
          take (sum_list ns)
            (filter (fun it =>
                       attributes it !! "StateValue" =
                       Some (AttrS (unquote alarm_state)))
                    (table env)) in
        (subscribed_with_state unquote alarm_state env).1
          = Ret ((fun arn => state_entry arn (alarm_count arn received)) <$>
                   first_occurrences (key_ResourceArn <$> received))) /\
     (forall resource_arn,
        let received :=
          take (sum_list ns)
            (filter (fun it => key_ResourceArn it = unquote resource_arn)
                    (table env)) in
        Forall with_colon received ->
        exists views,
          (alarms_for_subscriber unquote resource_arn env).1 = Ret views /\
          Forall2
            (fun ran view =>
               exists it,
                 last_named ran received = Some it /\ is_view it view)
            (sorted (list_to_set (key_RegionAlarmName <$> received)))
            views) /\
     (let received := take (sum_list ns) (table env) in
      Forall with_colon received ->
      exists alarms,
        (all_subscribed_alarms env).1 = Ret alarms /\
        Forall2
          (fun ran alarm =>
             exists region name,
               Str.cut ran = Some (region, name) /\
               alarm = <["Region" := AttrS region]>
                         (<["AlarmName" := AttrS name]> ∅))
          (sorted (list_to_set (key_RegionAlarmName <$> received)))
          alarms) /\
     (forall region alarms,
        let received :=
          take (sum_list ns)
            (default [] (metric_alarms env !! unquote region)) in
        Forall2 reshaped received alarms ->
        (get_cloudwatch_alarms_region unquote epoch_seconds region env).1
          = Ret alarms)) /\
  (forall env s,
     script env = Fault :: s ->
     (forall alarm_name region,
        (subscribers_to_alarm unquote alarm_name region env).1 = Ret []) /\
     (forall alarm_state,
        (subscribed_with_state unquote alarm_state env).1 = Ret []) /\
     (forall resource_arn,
        (alarms_for_subscriber unquote resource_arn env).1 = Ret []) /\
     (all_subscribed_alarms env).1 = Ret [] /\
     (forall region,
        (get_cloudwatch_alarms_region unquote epoch_seconds region env).1
          = Ret [])).
Proof.
  split; [|split; [|split]].
  - intros env. repeat split.
    + intros resource_arn. rewrite alarms_for_subscriber_run.
      by case_decide.
    + rewrite all_subscribed_alarms_run. by case_decide.
    + intros region.
      destruct (get_cloudwatch_alarms_region_run unquote epoch_seconds
                  region env) as [Hret Hraise].
      destruct (alarms_complete_or_not
                  (delivered
                     (default [] (metric_alarms env !! unquote region))
                     (script env)).1) as [[filtered Hf]|Hex].
      * destruct (Hret filtered Hf) as [env' ->]. done.
      * by rewrite (Hraise Hex).
    + intros alarm_state.
      destruct (subscribed_with_state_run unquote alarm_state env)
        as [s' ->].
      by eauto.
    + intros alarm_name region.
      destruct (subscribers_to_alarm_run unquote alarm_name region env)
        as (s' & _ & ->).
      by eauto.
    + intros event. apply incoming_outcome.
    + intros event Hev.
      destruct (incoming_returns_True unquote json_loads
                  strptime_timestamp event env Hev) as [env' ->].
      done.
  - intros request alarm_name region env. split.
    + unfold subscribe_resource_to_alarm, put_item.
      set (ran := Str.format_colon (unquote region) (unquote alarm_name)).
      apply (write_loop_result
               (fun arn => Put (key_item ran arn))
               (fun arn => key_item ran arn)
               (fun arn => subscription ran arn)).
      intros arn. apply of_dict_key_item.
    + unfold unsubscribe_resource_to_alarm, delete_item.
      set (ran := Str.format_colon (unquote region) (unquote alarm_name)).
      apply (write_loop_result
               (fun arn => Delete (key_item ran arn))
               (fun arn => key_item ran arn)
               (fun arn => subscription ran arn)).
      intros arn. apply of_dict_key_item.
  - intros env ns s Hs. repeat split.
    + intros alarm_name region received.
      destruct (subscribers_to_alarm_run unquote alarm_name region env)
        as (s' & _ & ->).
      simpl. by rewrite (subscribers_read_until_fault _ _ _ ns s).
    + intros alarm_state received.
      destruct (subscribed_with_state_run unquote alarm_state env)
        as [s' ->].
      simpl. rewrite (state_read_until_fault _ _ ns s) by done.
      by rewrite (state_entries_of_read unquote).
    + intros resource_arn received Hall.
      rewrite alarms_for_subscriber_run.
      rewrite (alarms_read_until_fault _ _ ns s) by done.
      rewrite decide_True by done.
      eexists. split; [done|]. by apply subscriber_views_of_read.
    + intros received Hall.
      rewrite all_subscribed_alarms_run.
      rewrite (scan_read_until_fault _ ns s) by done.
      rewrite decide_True by done.
      eexists. split; [done|]. by apply alarm_entries_of_read.
    + intros region alarms received Hall.
      destruct (get_cloudwatch_alarms_region_run unquote epoch_seconds
                  region env) as [Hret _].
      rewrite Hs, delivered_until_fault in Hret. simpl in Hret.
      destruct (Hret alarms Hall) as [env' ->]. done.
  - intros env s Hs. repeat split.
    + intros alarm_name region.
      unfold subscribers_to_alarm, run_pages. by rewrite Hs.
    + intros alarm_state.
      unfold subscribed_with_state, run_pages. by rewrite Hs.
    + intros resource_arn.
      unfold alarms_for_subscriber, run_pages. by rewrite Hs.
    + unfold all_subscribed_alarms, run_pages. by rewrite Hs.
    + intros region.
      unfold get_cloudwatch_alarms_region, run_pages. by rewrite Hs.
Qed.

End Errors.

Section StoreErrorExamples.

#[local] Abbreviation ingest :=
  (incoming_cloudwatch_alarm percent_decode example_json_loads
     example_strptime).

(** C8 as amended, on examples: a lookup whose second request fails
    returns the subscriber of its first page; subscribing two resources
    returns [False] when the second write fails; the handler returns
    [True] when its write fails. *)
Lemma store_errors_stay_inside_example :
  (subscribers_to_alarm percent_decode "HighCPU" "us-east-1"
     (example_env [subscription "us-east-1:HighCPU" "r1";
                   subscription "us-east-1:HighCPU" "r2"]
        [Limit 1; Fault] 0)).1 = Ret ["r1"] /\
  (subscribe_resource_to_alarm percent_decode ["r1"; "r2"] "HighCPU"
     "us-east-1" (example_env [] [Rest; Fault] 0)).1 = Ret false /\
  (ingest [example_record "HighCPU" "ALARM"]
     (example_env [subscription "us-east-1:HighCPU" "r1"] [Rest; Fault]
        100)).1 = Ret true.
Proof.
  destruct (store_errors_stay_inside percent_decode example_json_loads
              example_strptime example_epoch_seconds)
    as (Hinside & Hwrites & Hlists & _).
  split; [|split].
  - destruct (Hlists
                (example_env [subscription "us-east-1:HighCPU" "r1";
                              subscription "us-east-1:HighCPU" "r2"]
                   [Limit 1; Fault] 0) [1%nat] [] eq_refl) as (Hlookup & _).
    exact (Hlookup "HighCPU" "us-east-1").
  - destruct (Hwrites ["r1"; "r2"] "HighCPU" "us-east-1"
                (example_env [] [Rest; Fault] 0)) as [Hsub _].
    exact Hsub.
  - destruct (Hinside
                (example_env [subscription "us-east-1:HighCPU" "r1"]
                   [Rest; Fault] 100)) as (_ & _ & _ & _ & _ & _ & Htrue).
    apply Htrue. constructor; [|constructor].
    exists (mkParsed "us-east-1" "HighCPU" "ALARM" "AWS/EC2" example_epoch).
    reflexivity.
Defined.

(** C8 as stated fails.  After a store error a lookup returns the
    subscriber of the page it had received, a list that is not empty;
    after a failed write the handler of notifications returns [True],
    neither an empty result nor [False]; and the query of events by
    state lets the ClientError out. *)
Lemma store_error_neither_empty_nor_False :
  (let env :=
     example_env [subscription "us-east-1:HighCPU" "r1";
                  subscription "us-east-1:HighCPU" "r2"]
       [Limit 1; Fault] 0 in
   (delivered (table env) (script env)).2 = true /\
   subscribers_to_alarm percent_decode "HighCPU" "us-east-1" env
   = (Ret ["r1"], set_script [] env)) /\
  ingest [example_record "HighCPU" "ALARM"]
    (example_env [subscription "us-east-1:HighCPU" "r1"] [Rest; Fault] 100)
  = (Ret true,
     mkEnv [subscription "us-east-1:HighCPU" "r1"] [] ∅ [] 100
           [Put (to_dict (notified "us-east-1:HighCPU" "r1" "ALARM" 100))])
  /\
  get_cloudwatch_events_state "set" (example_env [] [Fault] 0)
  = (Raise ClientError, example_env [] [] 0).
Proof. repeat split; reflexivity. Qed.

End StoreErrorExamples.
